(** * posix++ local sockets: a shallow embedding of [local_socket.cc]

    The translation unit wraps the local-domain socket system calls
    ([socket], [socketpair], [bind], [connect], [accept], [sendmsg],
    [recvmsg]) and classifies their failures into C++ exceptions.  Every
    member function is embedded as an interaction tree over the calls it
    issues; the kernel is an oracle that answers each call, so that no
    assumption on its behaviour is built into the program text.  The
    [goto retry] loops become [ITree.iter]; a run that ends is a tree
    equivalent, up to silent steps, to a returned value, and a run that never
    ends is one equivalent to [ITree.spin].

    The file has three parts: the model (platform, data, calls, member
    functions, runs), the vocabulary of the statements, and the facts, which
    end with one theorem for each of C1 to C10. *)

From Stdlib Require Import ZArith List String Ascii Bool Lia.
From ITree Require Import ITree ITreeFacts Events.State Events.StateFacts Props.Leaf.
From Paco Require Import paco.
Import ITreeNotations ListNotations.
Local Open Scope itree_scope.
Local Open Scope string_scope.
Local Open Scope Z_scope.

(* ===================================================================== *)
(** * The platform: what the system headers and [config.h] provide       *)
(* ===================================================================== *)

(** The numeric values of the [errno] codes and of the socket constants, the
    sizes the [CMSG_*] macros are computed from, and the feature macros the
    [#ifdef]s test, all come from headers outside the translation unit.  A
    feature macro that may be undefined is an [option]. *)
Record platform : Type := {
  (* <cerrno> *)
  EINTR : Z;
  EBADF : Z;
  ENOMEM : Z;
  ENFILE : Z;
  EMFILE : Z;
  ENOBUFS : Z;
  (* <sys/socket.h> *)
  AF_LOCAL : Z;
  SOCK_STREAM : Z;
  SOCK_CLOEXEC : option Z;
  SOL_SOCKET : Z;
  SCM_RIGHTS : Z;
  MSG_CMSG_CLOEXEC : option Z;
  sizeof_cmsghdr : Z;
  sizeof_size_t : Z;
  sizeof_int : Z;
  (* <sys/un.h> *)
  sizeof_sun_family : Z;
  sizeof_sun_path : Z;
  (* config.h and the build *)
  HAVE_ACCEPT4 : bool;
  NDEBUG : bool
}.

(** The codes that share a [switch] in the source are pairwise distinct (the
    compiler rejects duplicate [case] labels), sizes are positive, the
    alignment unit of control messages is a power of two, and an address
    length fits [socklen_t]. *)
Record platform_ok (P : platform) : Prop := {
  ok_EINTR_ENOMEM : EINTR P <> ENOMEM P;
  ok_EINTR_EBADF : EINTR P <> EBADF P;
  ok_EINTR_EMFILE : EINTR P <> EMFILE P;
  ok_EINTR_ENFILE : EINTR P <> ENFILE P;
  ok_EINTR_ENOBUFS : EINTR P <> ENOBUFS P;
  ok_EBADF_ENOMEM : EBADF P <> ENOMEM P;
  ok_EBADF_EMFILE : EBADF P <> EMFILE P;
  ok_EBADF_ENFILE : EBADF P <> ENFILE P;
  ok_EBADF_ENOBUFS : EBADF P <> ENOBUFS P;
  ok_ENOBUFS_EMFILE : ENOBUFS P <> EMFILE P;
  ok_ENOBUFS_ENFILE : ENOBUFS P <> ENFILE P;
  ok_ENOBUFS_ENOMEM : ENOBUFS P <> ENOMEM P;
  ok_align : exists k, 0 <= k /\ sizeof_size_t P = 2 ^ k;
  ok_cmsghdr : 0 < sizeof_cmsghdr P;
  ok_int : 0 < sizeof_int P;
  ok_sun_family : 0 < sizeof_sun_family P;
  ok_sun_path : 0 < sizeof_sun_path P;
  ok_socklen : sizeof_sun_family P + sizeof_sun_path P <= 2 ^ 32
}.

(** Linux on x86-64 with glibc, built with [accept4] and with assertions
    enabled. *)
Definition linux_x86_64 : platform := {|
  EINTR := 4; EBADF := 9; ENOMEM := 12; ENFILE := 23; EMFILE := 24;
  ENOBUFS := 105;
  AF_LOCAL := 1; SOCK_STREAM := 1; SOCK_CLOEXEC := Some 524288;
  SOL_SOCKET := 1; SCM_RIGHTS := 1; MSG_CMSG_CLOEXEC := Some 1073741824;
  sizeof_cmsghdr := 16; sizeof_size_t := 8; sizeof_int := 4;
  sizeof_sun_family := 2; sizeof_sun_path := 108;
  HAVE_ACCEPT4 := true; NDEBUG := false
|}.

(** A platform without any of the atomic close-on-exec extensions (the
    constants are those of a BSD descendant), built with [NDEBUG]. *)
Definition bsd_like : platform := {|
  EINTR := 4; EBADF := 9; ENOMEM := 12; ENFILE := 23; EMFILE := 24;
  ENOBUFS := 55;
  AF_LOCAL := 1; SOCK_STREAM := 1; SOCK_CLOEXEC := None;
  SOL_SOCKET := 65535; SCM_RIGHTS := 1; MSG_CMSG_CLOEXEC := None;
  sizeof_cmsghdr := 12; sizeof_size_t := 4; sizeof_int := 4;
  sizeof_sun_family := 1; sizeof_sun_path := 104;
  HAVE_ACCEPT4 := false; NDEBUG := true
|}.

(* ===================================================================== *)
(** * Data                                                                *)
(* ===================================================================== *)

(** ** Exceptions and the ways a member function can end *)

(** [posix::error] and [posix::fatal_error] carry the [errno] code,
    [posix::bad_descriptor] carries nothing, and [std::logic_error] carries
    its message. *)
Inductive exn : Type :=
| posix_error (code : Z)
| posix_fatal_error (code : Z)
| posix_bad_descriptor
| std_logic_error (what : string).

(** What the language leaves undefined and the source can reach. *)
Inductive undefined : Type :=
| strcpy_overrun (written capacity : Z)
| null_dereference
| indeterminate_read.

Inductive outcome (A : Type) : Type :=
| Returned (a : A)
| Thrown (e : exn)
| Aborted
| Undefined (u : undefined).

Arguments Returned {A} a.
Arguments Thrown {A} e.
Arguments Aborted {A}.
Arguments Undefined {A} u.

(** ** Descriptors *)

(** Modelled from the spec: [descriptor.h] is not part of the sources.  A
    descriptor "owns one kernel handle (an integer identifier) or is in an
    empty/invalid state (no handle owned)"; it exposes its "current handle
    value" and lets one "assign a new handle taking ownership".  The handle
    value of an empty descriptor is taken to be [-1], the value no system
    call returns for a live handle. *)
Record descriptor : Type := { handle : option Z }.

Definition empty_descriptor : descriptor := {| handle := None |}.

Definition fd (d : descriptor) : Z :=
  match handle d with
  | Some n => n
  | None => -1
  end.

Definition assign (d : descriptor) (n : Z) : descriptor := {| handle := Some n |}.

(** A local socket is a descriptor with no state of its own. *)
Definition local_socket : Type := descriptor.

(** ** Pathnames and C strings *)

(** Modelled from the spec: [pathname.h] is not part of the sources.  A
    pathname exposes a "non-emptiness check and a null-terminated-string view
    with a known byte length"; it wraps the bytes of a string, which nothing
    in this translation unit validates. *)
Record pathname : Type := { path_string : string }.

Definition pathname_empty (p : pathname) : bool :=
  match path_string p with
  | EmptyString => true
  | String _ _ => false
  end.

Definition NUL : ascii := Ascii.zero.

(** The memory [c_str()] points to: the bytes, then a terminator. *)
Definition c_str (p : pathname) : string := path_string p ++ String NUL "".

(** The bytes a C string function sees in the memory [mem]: those before the
    first [NUL]. *)
Fixpoint c_string (mem : string) : string :=
  match mem with
  | EmptyString => EmptyString
  | String c rest => if Ascii.eqb c NUL then EmptyString else String c (c_string rest)
  end.

Definition strlen (mem : string) : Z := Z.of_nat (String.length (c_string mem)).

(** [strcpy(dest, src)] stores the bytes of [src] up to and including its
    terminator; [capacity] is the size of the array [dest] designates.
    Storing past the end of the array is undefined. *)
Definition strcpy (capacity : Z) (src : string) : string + undefined :=
  let stored := c_string src ++ String NUL "" in
  let written := Z.of_nat (String.length stored) in
  if written <=? capacity then inl stored else inr (strcpy_overrun written capacity).

(** [struct sockaddr_un]: [sun_path] holds the bytes stored from the start
    of the array (the rest of the array is indeterminate). *)
Record sockaddr_un : Type := {
  sun_family : Z;
  sun_path : string
}.

(** Conversion to [socklen_t], an unsigned 32-bit integer. *)
Definition to_socklen_t (n : Z) : Z := n mod 2 ^ 32.

(** ** Message headers and ancillary data *)

(** A byte of a buffer is [None] while it is indeterminate. *)
Record iovec : Type := {
  iov_base : list (option Z);
  iov_len : Z
}.

(** One control message: the three header fields and the [int]s stored at
    [CMSG_DATA]. *)
Record cmsghdr : Type := {
  cmsg_len : Z;
  cmsg_level : Z;
  cmsg_type : Z;
  cmsg_data : list Z
}.

(** The array [cmsg_buffer]: its size, and the control messages stored in it
    from its first byte on (none while it is indeterminate). *)
Record control_buffer : Type := {
  capacity : Z;
  records : list cmsghdr
}.

(** [struct msghdr]; a null pointer is [None] (or the empty array for
    [msg_iov]). *)
Record msghdr : Type := {
  msg_name : option string;
  msg_namelen : Z;
  msg_iov : list iovec;
  msg_iovlen : Z;
  msg_control : option control_buffer;
  msg_controllen : Z;
  msg_flags : Z
}.

(** [std::memset(&msg, 0, sizeof(msghdr))]. *)
Definition zeroed_msghdr : msghdr := {|
  msg_name := None; msg_namelen := 0;
  msg_iov := []; msg_iovlen := 0;
  msg_control := None; msg_controllen := 0;
  msg_flags := 0
|}.

(** What a [cmsghdr*] points to: nothing, a control message stored in the
    buffer, or bytes nobody stored. *)
Variant cmsg_pointer : Type :=
| cmsg_null
| cmsg_at (c : cmsghdr)
| cmsg_indeterminate.

Section Cmsg.

Variable P : platform.

(** The macros of <sys/socket.h>, as glibc defines them. *)
Definition CMSG_ALIGN (len : Z) : Z :=
  Z.land (len + sizeof_size_t P - 1) (Z.lnot (sizeof_size_t P - 1)).

Definition CMSG_SPACE (len : Z) : Z :=
  CMSG_ALIGN len + CMSG_ALIGN (sizeof_cmsghdr P).

Definition CMSG_LEN (len : Z) : Z :=
  CMSG_ALIGN (sizeof_cmsghdr P) + len.

(** [CMSG_FIRSTHDR(&msg)]: null when the control data is shorter than a
    header, else the start of the control buffer. *)
Definition CMSG_FIRSTHDR (msg : msghdr) : cmsg_pointer :=
  if sizeof_cmsghdr P <=? msg_controllen msg then
    match msg_control msg with
    | None => cmsg_null
    | Some buf =>
        match records buf with
        | c :: _ => cmsg_at c
        | [] => cmsg_indeterminate
        end
    end
  else cmsg_null.

(** The three [static_assert]s on the size of [cmsg_buffer]. *)
Definition static_asserts : bool :=
  let size := CMSG_SPACE (sizeof_int P) in
  (sizeof_cmsghdr P <=? size) && (CMSG_SPACE (sizeof_int P) <=? size)
  && (CMSG_LEN (sizeof_int P) <=? size).

End Cmsg.

(* ===================================================================== *)
(** * The calls the translation unit issues                              *)
(* ===================================================================== *)

(** What a system call reports: its return value, and the value it leaves in
    [errno]. *)
Record sysret : Type := { rc : Z; errno : Z }.

(** One event per call, with the arguments the source passes.  [socketpair]
    and [recvmsg] also answer with the contents of the memory they were
    given to fill ([fds] and [msg]); a kernel that leaves it untouched
    answers with what it was given.  [Cloexec] is the call of
    [descriptor::cloexec(bool)], which either returns ([None]) or throws. *)
Variant sysE : Type -> Type :=
| Socket (domain type protocol : Z) : sysE sysret
| Socketpair (domain type protocol : Z) (sv : Z * Z) : sysE (sysret * (Z * Z))
| Bind (sockfd : Z) (addr : sockaddr_un) (addrlen : Z) : sysE sysret
| Connect (sockfd : Z) (addr : sockaddr_un) (addrlen : Z) : sysE sysret
| Accept (sockfd : Z) : sysE sysret
| Accept4 (sockfd flags : Z) : sysE sysret
| Sendmsg (sockfd : Z) (msg : msghdr) (flags : Z) : sysE sysret
| Recvmsg (sockfd : Z) (msg : msghdr) (flags : Z) : sysE (sysret * msghdr)
| Cloexec (d : descriptor) (state : bool) : sysE (option exn).

(** A call without its answer type, for the journal of a run. *)
Definition call : Type := { T : Type & sysE T }.

Definition call_of {T} (e : sysE T) : call := existT sysE T e.

(* ===================================================================== *)
(** * The member functions of [local_socket]                             *)
(* ===================================================================== *)

Definition M (A : Type) : Type := itree sysE (outcome A).

(** Sequencing that lets an exception, an abort or undefined behaviour end
    the function. *)
Definition and_then {A B} (t : M A) (k : A -> M B) : M B :=
  ITree.bind t (fun o =>
    match o with
    | Returned a => k a
    | Thrown e => Ret (Thrown e)
    | Aborted => Ret Aborted
    | Undefined u => Ret (Undefined u)
    end).

Notation "x <-- t ;;; k" := (and_then t (fun x => k))
  (at level 62, t at next level, right associativity).

(** A [case] label list of a [switch (errno)]. *)
Definition is_case (code : Z) (labels : list Z) : bool :=
  existsb (Z.eqb code) labels.

(** Modelled from the spec: [descriptor::cloexec(bool)] belongs to
    [descriptor.cc], which is not part of the sources.  The spec has the
    descriptor "set/clear close-on-exec" and lets every operation end with
    one of the exceptions; what the call does is left to the environment,
    which answers whether it returned or what it threw. *)
Definition cloexec (d : descriptor) (state : bool) : M unit :=
  ITree.bind (ITree.trigger (Cloexec d state)) (fun thrown =>
    match thrown with
    | None => Ret (Returned tt)
    | Some e => Ret (Thrown e)
    end).

Section Operations.

Variable P : platform.

(** [flags |= F] under [#ifdef F]. *)
Definition or_if_defined (flags : Z) (macro : option Z) : Z :=
  match macro with
  | Some bit => Z.lor flags bit
  | None => flags
  end.

(** [local_socket::local_socket()] *)
Definition local_socket_new : M local_socket :=
  let flags := or_if_defined 0 (SOCK_CLOEXEC P) in
  ITree.bind (ITree.trigger (Socket (AF_LOCAL P) (Z.lor (SOCK_STREAM P) flags) 0))
    (fun r =>
       let sockfd := rc r in
       if sockfd =? -1 then
         if is_case (errno r) [EMFILE P; ENFILE P; ENOBUFS P; ENOMEM P]
         then Ret (Thrown (posix_fatal_error (errno r)))
         else Ret (Thrown (posix_error (errno r)))
       else
         let this := assign empty_descriptor sockfd in
         match SOCK_CLOEXEC P with
         | Some _ => Ret (Returned this)
         | None => _ <-- cloexec this true ;;; Ret (Returned this)
         end).

(** [local_socket::pair()] *)
Definition pair : M (local_socket * local_socket) :=
  let flags := or_if_defined 0 (SOCK_CLOEXEC P) in
  ITree.bind
    (ITree.trigger (Socketpair (AF_LOCAL P) (Z.lor (SOCK_STREAM P) flags) 0 (0, 0)))
    (fun '(r, fds) =>
       if rc r =? -1 then
         if is_case (errno r) [EMFILE P; ENFILE P; ENOMEM P]
         then Ret (Thrown (posix_fatal_error (errno r)))
         else Ret (Thrown (posix_error (errno r)))
       else
         let pair := (assign empty_descriptor (fst fds),
                      assign empty_descriptor (snd fds)) in
         match SOCK_CLOEXEC P with
         | Some _ => Ret (Returned pair)
         | None =>
             _ <-- cloexec (fst pair) true ;;;
             _ <-- cloexec (snd pair) true ;;;
             Ret (Returned pair)
         end).

(** The address both [bind] and [connect] build:
    [addr.sun_family = AF_LOCAL; strcpy(addr.sun_path, pathname.c_str());]
    and [addrlen = sizeof(addr.sun_family) + strlen(addr.sun_path)]. *)
Definition build_address (p : pathname) : outcome (sockaddr_un * Z) :=
  match strcpy (sizeof_sun_path P) (c_str p) with
  | inl stored =>
      let addr := {| sun_family := AF_LOCAL P; sun_path := stored |} in
      let addrlen := to_socklen_t (sizeof_sun_family P + strlen (sun_path addr)) in
      Returned (addr, addrlen)
  | inr u => Undefined u
  end.

(** The [retry:] loop of [bind]. *)
Definition bind_retry (sockfd : Z) (addr : sockaddr_un) (addrlen : Z) : M unit :=
  ITree.iter (fun _ : unit =>
    ITree.bind (ITree.trigger (Bind sockfd addr addrlen)) (fun r =>
      if rc r =? -1 then
        if is_case (errno r) [EINTR P] then Ret (inl tt)
        else if is_case (errno r) [ENOMEM P]
        then Ret (inr (Thrown (posix_fatal_error (errno r))))
        else if is_case (errno r) [EBADF P]
        then Ret (inr (Thrown posix_bad_descriptor))
        else Ret (inr (Thrown (posix_error (errno r))))
      else Ret (inr (Returned tt)))) tt.

(** [assert(!pathname.empty())], compiled out under [NDEBUG]. *)
Definition assert_not_empty (p : pathname) : outcome unit :=
  if NDEBUG P then Returned tt
  else if pathname_empty p then Aborted else Returned tt.

(** [local_socket::bind(const pathname&)] *)
Definition bind (p : pathname) : M local_socket :=
  _ <-- Ret (assert_not_empty p) ;;;
  socket <-- local_socket_new ;;;
  built <-- Ret (build_address p) ;;;
  let '(addr, addrlen) := built in
  _ <-- bind_retry (fd socket) addr addrlen ;;;
  Ret (Returned socket).

(** The [retry:] loop of [connect]. *)
Definition connect_retry (sockfd : Z) (addr : sockaddr_un) (addrlen : Z) : M unit :=
  ITree.iter (fun _ : unit =>
    ITree.bind (ITree.trigger (Connect sockfd addr addrlen)) (fun r =>
      if rc r =? -1 then
        if is_case (errno r) [EINTR P] then Ret (inl tt)
        else if is_case (errno r) [EBADF P]
        then Ret (inr (Thrown posix_bad_descriptor))
        else Ret (inr (Thrown (posix_error (errno r))))
      else Ret (inr (Returned tt)))) tt.

(** [local_socket::connect(const pathname&)] *)
Definition connect (p : pathname) : M local_socket :=
  _ <-- Ret (assert_not_empty p) ;;;
  socket <-- local_socket_new ;;;
  built <-- Ret (build_address p) ;;;
  let '(addr, addrlen) := built in
  _ <-- connect_retry (fd socket) addr addrlen ;;;
  Ret (Returned socket).

(** The call [accept] makes: [accept4] with [SOCK_CLOEXEC] when both
    [HAVE_ACCEPT4] and [SOCK_CLOEXEC] are defined, else [accept]. *)
Definition accept_call (sockfd : Z) : sysE sysret :=
  match HAVE_ACCEPT4 P, SOCK_CLOEXEC P with
  | true, Some bit => Accept4 sockfd bit
  | _, _ => Accept sockfd
  end.

Definition accept_is_atomic : bool :=
  match HAVE_ACCEPT4 P, SOCK_CLOEXEC P with
  | true, Some _ => true
  | _, _ => false
  end.

(** The [retry:] loop of [accept]; it ends with [connfd]. *)
Definition accept_retry (sockfd : Z) : M Z :=
  ITree.iter (fun _ : unit =>
    ITree.bind (ITree.trigger (accept_call sockfd)) (fun r =>
      let connfd := rc r in
      if connfd =? -1 then
        if is_case (errno r) [EINTR P] then Ret (inl tt)
        else if is_case (errno r) [EMFILE P; ENFILE P; ENOBUFS P; ENOMEM P]
        then Ret (inr (Thrown (posix_fatal_error (errno r))))
        else if is_case (errno r) [EBADF P]
        then Ret (inr (Thrown posix_bad_descriptor))
        else Ret (inr (Thrown (posix_error (errno r))))
      else Ret (inr (Returned connfd)))) tt.

(** [local_socket::accept()]: [local_socket connection;] runs the default
    constructor above. *)
Definition accept (this : local_socket) : M local_socket :=
  connection <-- local_socket_new ;;;
  connfd <-- accept_retry (fd this) ;;;
  let connection := assign connection connfd in
  if accept_is_atomic then Ret (Returned connection)
  else _ <-- cloexec connection true ;;; Ret (Returned connection).

(** The array [std::array<std::uint8_t, CMSG_SPACE(sizeof(int))> cmsg_buffer],
    not initialised. *)
Definition cmsg_buffer : control_buffer :=
  {| capacity := CMSG_SPACE P (sizeof_int P); records := [] |}.

(** The header both transfer functions set up: [iov] and [msg] are zeroed,
    [iov] designates the one-byte [data_buffer], and [msg] designates
    [iov] and [cmsg_buffer]. *)
Definition message_header (data_buffer : list (option Z)) : msghdr :=
  let iov := {| iov_base := data_buffer; iov_len := Z.of_nat (List.length data_buffer) |} in
  {| msg_name := msg_name zeroed_msghdr;
     msg_namelen := msg_namelen zeroed_msghdr;
     msg_iov := [iov];
     msg_iovlen := 1;
     msg_control := Some cmsg_buffer;
     msg_controllen := capacity cmsg_buffer;
     msg_flags := msg_flags zeroed_msghdr |}.

(** Storing a control message through the pointer [CMSG_FIRSTHDR] gave. *)
Definition store_first_cmsg (msg : msghdr) (c : cmsghdr) : msghdr :=
  {| msg_name := msg_name msg;
     msg_namelen := msg_namelen msg;
     msg_iov := msg_iov msg;
     msg_iovlen := msg_iovlen msg;
     msg_control :=
       match msg_control msg with
       | Some buf => Some {| capacity := capacity buf; records := c :: tl (records buf) |}
       | None => None
       end;
     msg_controllen := msg_controllen msg;
     msg_flags := msg_flags msg |}.

(** The message [send_descriptor] builds before its [retry:] label; the
    four stores through [cmsg] are
    [cmsg->cmsg_len = CMSG_LEN(sizeof(int))], [cmsg->cmsg_level = SOL_SOCKET],
    [cmsg->cmsg_type = SCM_RIGHTS] and [*(int* )CMSG_DATA(cmsg) = descriptor.fd()]. *)
Definition rights_message (d : descriptor) : outcome msghdr :=
  let data_buffer := [Some 0] in
  let msg := message_header data_buffer in
  match CMSG_FIRSTHDR P msg with
  | cmsg_null => Undefined null_dereference
  | _ =>
      Returned (store_first_cmsg msg
        {| cmsg_len := CMSG_LEN P (sizeof_int P);
           cmsg_level := SOL_SOCKET P;
           cmsg_type := SCM_RIGHTS P;
           cmsg_data := [fd d] |})
  end.

(** The [retry:] loop of [send_descriptor]. *)
Definition sendmsg_retry (sockfd : Z) (msg : msghdr) (flags : Z) : M unit :=
  ITree.iter (fun _ : unit =>
    ITree.bind (ITree.trigger (Sendmsg sockfd msg flags)) (fun r =>
      if rc r =? -1 then
        if is_case (errno r) [EINTR P] then Ret (inl tt)
        else if is_case (errno r) [ENOMEM P]
        then Ret (inr (Thrown (posix_fatal_error (errno r))))
        else if is_case (errno r) [EBADF P]
        then Ret (inr (Thrown posix_bad_descriptor))
        else Ret (inr (Thrown (posix_error (errno r))))
      else Ret (inr (Returned tt)))) tt.

(** [local_socket::send_descriptor(const descriptor&)] *)
Definition send_descriptor (this : local_socket) (d : descriptor) : M unit :=
  msg <-- Ret (rights_message d) ;;;
  sendmsg_retry (fd this) msg 0.

(** The [retry:] loop of [recv_descriptor].  The kernel writes into [msg],
    so each call is given the header as the previous one left it; the loop
    ends with the header as the successful call left it. *)
Definition recvmsg_retry (sockfd : Z) (msg : msghdr) (flags : Z) : M msghdr :=
  ITree.iter (fun msg : msghdr =>
    ITree.bind (ITree.trigger (Recvmsg sockfd msg flags)) (fun '(r, msg) =>
      if rc r =? -1 then
        if is_case (errno r) [EINTR P] then Ret (inl msg)
        else if is_case (errno r) [ENOMEM P]
        then Ret (inr (Thrown (posix_fatal_error (errno r))))
        else if is_case (errno r) [EBADF P]
        then Ret (inr (Thrown posix_bad_descriptor))
        else Ret (inr (Thrown (posix_error (errno r))))
      else Ret (inr (Returned msg)))) msg.

(** The end of [recv_descriptor]: [result.cloexec(true)] under
    [#ifndef MSG_CMSG_CLOEXEC], then [return result]. *)
Definition return_received (result : descriptor) : M descriptor :=
  match MSG_CMSG_CLOEXEC P with
  | Some _ => Ret (Returned result)
  | None => _ <-- cloexec result true ;;; Ret (Returned result)
  end.

(** What [recv_descriptor] does with the header once [recvmsg] succeeded. *)
Definition extract_descriptor (result : descriptor) (msg : msghdr) : M descriptor :=
  match CMSG_FIRSTHDR P msg with
  | cmsg_null => return_received result
  | cmsg_indeterminate => Ret (Undefined indeterminate_read)
  | cmsg_at cmsg =>
      if cmsg_len cmsg =? CMSG_LEN P (sizeof_int P) then
        if negb (cmsg_level cmsg =? SOL_SOCKET P)
        then Ret (Thrown (std_logic_error "invalid cmsg_level"))
        else if negb (cmsg_type cmsg =? SCM_RIGHTS P)
        then Ret (Thrown (std_logic_error "invalid cmsg_type"))
        else
          match cmsg_data cmsg with
          | n :: _ => return_received (assign result n)
          | [] => Ret (Undefined indeterminate_read)
          end
      else return_received result
  end.

(** [local_socket::recv_descriptor()] *)
Definition recv_descriptor (this : local_socket) : M descriptor :=
  let result := empty_descriptor in
  let data_buffer := [None] in
  let msg := message_header data_buffer in
  let flags := or_if_defined 0 (MSG_CMSG_CLOEXEC P) in
  msg <-- recvmsg_retry (fd this) msg flags ;;;
  extract_descriptor result msg.

End Operations.

(* ===================================================================== *)
(** * Running a member function against a kernel                         *)
(* ===================================================================== *)

(** The kernel is an oracle: the answer to the [n]-th call of a run may
    depend on [n] and on the call. *)
Definition kernel : Type := nat -> forall T, sysE T -> T.

(** The state of a run: how many calls were answered, and which. *)
Record world : Type := { clock : nat; journal : list call }.

Definition boot : world := {| clock := 0; journal := [] |}.

(** Answering a call advances the clock and records the call. *)
Definition tick (w : world) {T} (e : sysE T) : world :=
  {| clock := S (clock w); journal := journal w ++ [call_of e] |}.

Definition answer (k : kernel) : sysE ~> Monads.stateT world (itree void1) :=
  fun T e w => Ret (tick w e, k (clock w) T e).

Definition exec (k : kernel) {R} (t : itree sysE R) (w : world) : itree void1 (world * R) :=
  interp_state (answer k) t w.

(** The run of [t] from [w] ends in [w'] with result [r]. *)
Definition ends (k : kernel) {R} (t : itree sysE R) (w w' : world) (r : R) : Prop :=
  exec k t w ≈ Ret (w', r).

(** The run of [t] from [w] never ends. *)
Definition diverges (k : kernel) {R} (t : itree sysE R) (w : world) : Prop :=
  exec k t w ≈ ITree.spin.

(** An executable reading of a run: peel at most [fuel] silent steps. *)
Fixpoint unroll {R} (fuel : nat) (t : itree void1 R) : option R :=
  match fuel with
  | O => None
  | S fuel' =>
      match observe t with
      | RetF r => Some r
      | TauF t' => unroll fuel' t'
      | VisF e _ => match e with end
      end
  end.

Definition run (fuel : nat) (k : kernel) {R} (t : itree sysE R) (w : world)
  : option (world * R) :=
  unroll fuel (exec k t w).

(** ** Scripted kernels *)

(** A system call that succeeds with [n], or fails and sets [errno]. *)
Definition success (n : Z) : sysret := {| rc := n; errno := 0 |}.
Definition failure (code : Z) : sysret := {| rc := -1; errno := code |}.

(** A kernel that answers every call the same way: [r] for the calls that
    only report, [r] and the memory as it was given for [socketpair] and
    [recvmsg], and a return for [cloexec]. *)
Definition uniform (r : sysret) : forall T, sysE T -> T :=
  fun T e =>
    match e in sysE T return T with
    | Socket _ _ _ => r
    | Socketpair _ _ _ sv => (r, sv)
    | Bind _ _ _ => r
    | Connect _ _ _ => r
    | Accept _ => r
    | Accept4 _ _ => r
    | Sendmsg _ _ _ => r
    | Recvmsg _ msg _ => (r, msg)
    | Cloexec _ _ => None
    end.

(** [recvmsg] succeeds with [n] bytes and leaves [msg'] in the header. *)
Definition receiving (n : Z) (msg' : msghdr) : forall T, sysE T -> T :=
  fun T e =>
    match e in sysE T return T with
    | Recvmsg _ _ _ => (success n, msg')
    | e' => uniform (success 0) _ e'
    end.

(** A kernel that plays a list of answers, one per call, and then keeps
    answering like [last]. *)
Definition script (answers : list (forall T, sysE T -> T)) (last : forall T, sysE T -> T)
  : kernel :=
  fun n => nth n answers last.


(* ===================================================================== *)
(** * The vocabulary of the statements                                   *)
(* ===================================================================== *)

(** ** Outcomes *)

(** The outcomes that end a function without a result. *)
Definition stopped {A} (o : outcome A) : Prop :=
  match o with
  | Returned _ => False
  | _ => True
  end.

(** An outcome without a result, at another result type (it is used on
    such outcomes only). *)
Definition carry {A} (B : Type) (o : outcome A) : outcome B :=
  match o with
  | Returned _ => Aborted
  | Thrown e => Thrown e
  | Aborted => Aborted
  | Undefined u => Undefined u
  end.

(** The outcome of a function that ends like [o] but returns [b]. *)
Definition returning {A B} (o : outcome A) (b : B) : outcome B :=
  match o with
  | Returned _ => Returned b
  | Thrown e => Thrown e
  | Aborted => Aborted
  | Undefined u => Undefined u
  end.

(** An exception of the fatal class. *)
Definition is_fatal {A} (o : outcome A) : Prop :=
  match o with
  | Thrown (posix_fatal_error _) => True
  | _ => False
  end.

(** An exception a loop may throw does not report an interruption: it
    carries no [EINTR]. *)
Definition not_interruption (P : platform) {A} (o : outcome A) : Prop :=
  match o with
  | Thrown (posix_error code) => code <> EINTR P
  | Thrown (posix_fatal_error code) => code <> EINTR P
  | _ => True
  end.

(** The codes the default constructor and [accept] treat as fatal. *)
Definition resource_exhaustion (P : platform) (code : Z) : Prop :=
  code = EMFILE P \/ code = ENFILE P \/ code = ENOBUFS P \/ code = ENOMEM P.

(** ** Calls and their answers *)

(** The call the default constructor makes. *)
Definition socket_call (P : platform) : sysE sysret :=
  Socket (AF_LOCAL P) (Z.lor (SOCK_STREAM P) (or_if_defined 0 (SOCK_CLOEXEC P))) 0.

(** The call [pair] makes. *)
Definition socketpair_call (P : platform) : sysE (sysret * (Z * Z)) :=
  Socketpair (AF_LOCAL P) (Z.lor (SOCK_STREAM P) (or_if_defined 0 (SOCK_CLOEXEC P))) 0 (0, 0).

(** The call [recv_descriptor] makes. *)
Definition recvmsg_call (P : platform) (this : local_socket) : sysE (sysret * msghdr) :=
  Recvmsg (fd this) (message_header P [None]) (or_if_defined 0 (MSG_CMSG_CLOEXEC P)).

(** [n] answers to the same call. *)
Fixpoint ticks (w : world) {T} (e : sysE T) (n : nat) : world :=
  match n with
  | O => w
  | S n' => ticks (tick w e) e n'
  end.

(** The state after [n] interrupted calls [e] and one that was answered. *)
Definition answered {T} (w : world) (e : sysE T) (n : nat) : world :=
  {| clock := clock w + S n; journal := journal w ++ repeat (call_of e) (S n) |}.

(** The state after [recv_descriptor] was interrupted [n] times and then
    answered. *)
Definition received (P : platform) (this : local_socket) (w : world) (n : nat) : world :=
  answered w (recvmsg_call P this) n.

(** From [w] on, the kernel answers the call [e] with [again] [n] times and
    then with [last]. *)
Definition answers_after {T} (k : kernel) (w : world) (e : sysE T) (n : nat)
           (again last : T) : Prop :=
  (forall j, (j < n)%nat -> k (clock w + j)%nat T e = again) /\
  k (clock w + n)%nat T e = last.

(** From [w] on, the kernel answers the call [e] with [again] for ever. *)
Definition always_answers {T} (k : kernel) (w : world) (e : sysE T) (again : T) : Prop :=
  forall j, k (clock w + j)%nat T e = again.

(** ** Loops *)

(** The shape the five [retry:] loops share: issue the call, then decide on
    its answer whether to go round again. *)
Definition retry_loop {I T R} (ev : I -> sysE T) (decide : T -> itree sysE (I + R))
  : I -> itree sysE R :=
  ITree.iter (fun i => ITree.bind (ITree.trigger (ev i)) decide).

(** [loop] retries the call [e] transparently: for every kernel and from
    every state,
    - however many times the call is [interrupted], it is issued again with
      the same arguments, and when the kernel then answers with a success
      [last] the loop returns [result last];
    - while the kernel keeps answering [interrupted] the loop keeps calling:
      it never ends;
    - whatever the kernel answers, no exception the loop ends with reports an
      interruption. *)
Definition retries_transparently (P : platform) {T A} (e : sysE T) (interrupted : T)
           (succeeded : T -> Prop) (result : T -> A) (loop : M A) : Prop :=
  forall (k : kernel) (w : world),
    (forall (n : nat) (last : T),
        succeeded last ->
        answers_after k w e n interrupted last ->
        ends k loop w (answered w e n) (Returned (result last)))
    /\ (always_answers k w e interrupted -> diverges k loop w)
    /\ (forall (w' : world) (o : outcome A), ends k loop w w' o -> not_interruption P o).

(** ** Headers and pathnames *)

(** The header [recvmsg] left holds no control message of the length of one
    [int]: none at all, or one of another length. *)
Definition no_rights_record (P : platform) (msg : msghdr) : Prop :=
  CMSG_FIRSTHDR P msg = cmsg_null
  \/ exists cmsg, CMSG_FIRSTHDR P msg = cmsg_at cmsg
                  /\ cmsg_len cmsg <> CMSG_LEN P (sizeof_int P).

(** A header as [recvmsg] leaves it when the peer sent the payload byte and
    no control message: no control data. *)
Definition header_without_control (P : platform) : msghdr :=
  {| msg_name := None; msg_namelen := 0;
     msg_iov := [{| iov_base := [Some 0]; iov_len := 1 |}]; msg_iovlen := 1;
     msg_control := Some (cmsg_buffer P); msg_controllen := 0;
     msg_flags := 0 |}.

(** A header as [recvmsg] leaves it when the control data is the one control
    message [cmsg]. *)
Definition header_with_control (P : platform) (cmsg : cmsghdr) : msghdr :=
  {| msg_name := None; msg_namelen := 0;
     msg_iov := [{| iov_base := [Some 0]; iov_len := 1 |}]; msg_iovlen := 1;
     msg_control := Some {| capacity := capacity (cmsg_buffer P); records := [cmsg] |};
     msg_controllen := CMSG_ALIGN P (cmsg_len cmsg);
     msg_flags := 0 |}.

(** Whether a string holds a [NUL] byte. *)
Fixpoint contains_NUL (s : string) : bool :=
  match s with
  | EmptyString => false
  | String c rest => Ascii.eqb c NUL || contains_NUL rest
  end.

(** A pathname of 108 bytes, the size of [sun_path] on Linux. *)
Definition long_pathname : pathname :=
  {| path_string := string_of_list_ascii (repeat "a"%char 108) |}.

(** A pathname with a [NUL] byte in the middle. *)
Definition split_pathname : pathname :=
  {| path_string := String "a" (String NUL "b") |}.

(** ** What a [switch (errno)] lets through *)

(** The outcome [o] is one a loop can have whose [switch] throws
    [posix::fatal_error] for the codes [fatal], [posix::bad_descriptor] for
    [EBADF], and [posix::error] for the rest: a fatal error carries one of
    [fatal], an ordinary error carries a code that is none of [fatal],
    [EBADF] and [EINTR], and nothing else ends the loop but a return. *)
Definition thrown_by_switch (P : platform) (fatal : list Z) {A} (o : outcome A) : Prop :=
  match o with
  | Returned _ => True
  | Thrown (posix_fatal_error code) => In code fatal /\ code <> EINTR P
  | Thrown posix_bad_descriptor => True
  | Thrown (posix_error code) => ~ In code fatal /\ code <> EBADF P /\ code <> EINTR P
  | Thrown (std_logic_error _) => False
  | Aborted => False
  | Undefined _ => False
  end.

(** A [recvmsg] call on the socket [sockfd] with the flags [flags], whatever
    the header holds. *)
Definition is_recvmsg_on (sockfd flags : Z) (c : call) : Prop :=
  exists msg, c = call_of (Recvmsg sockfd msg flags).

(** An environment in which [cloexec] throws [e] and every system call
    succeeds with 0. *)
Definition cloexec_throws (e : exn) : forall T, sysE T -> T :=
  fun T c =>
    match c in sysE T return T with
    | Cloexec _ _ => Some e
    | c' => uniform (success 0) _ c'
    end.

(** The header [recvmsg] leaves in the receiver when the peer sent [sent]:
    the payload byte, and the control data of [sent] with the handle value
    the kernel gave the descriptor in the receiving process. *)
Definition delivered (P : platform) (sent : msghdr) (handle_here : Z) : msghdr :=
  {| msg_name := None; msg_namelen := 0;
     msg_iov := msg_iov sent; msg_iovlen := 1;
     msg_control :=
       match msg_control sent with
       | Some buf =>
           Some {| capacity := capacity (cmsg_buffer P);
                   records :=
                     List.map (fun c => {| cmsg_len := cmsg_len c;
                                      cmsg_level := cmsg_level c;
                                      cmsg_type := cmsg_type c;
                                      cmsg_data := List.map (fun _ => handle_here) (cmsg_data c) |})
                         (records buf) |}
       | None => None
       end;
     msg_controllen := msg_controllen sent;
     msg_flags := 0 |}.

(** [socketpair] succeeds and fills [fds] with the two handles [sv]. *)
Definition pairing (sv : Z * Z) : forall T, sysE T -> T :=
  fun T e =>
    match e in sysE T return T with
    | Socketpair _ _ _ _ => (success 0, sv)
    | e' => uniform (success 0) _ e'
    end.

(* ===================================================================== *)
(** * Facts about runs                                                   *)
(* ===================================================================== *)

Section Runs.

Variable k : kernel.

(** What the executable reading finds is the end of the run. *)
Lemma unroll_sound {R} (fuel : nat) (t : itree void1 R) (r : R) :
  unroll fuel t = Some r -> t ≈ Ret r.
Proof.
  revert t; induction fuel as [|fuel IH]; cbn; intros t H; [discriminate|].
  destruct (observe t) as [r'|t'|X e c] eqn:Ht.
  - inversion H; subst. rewrite (itree_eta t), Ht. reflexivity.
  - rewrite (itree_eta t), Ht, tau_eutt. auto.
  - destruct e.
Qed.

Lemma run_ends {R} (fuel : nat) (t : itree sysE R) (w w' : world) (r : R) :
  run fuel k t w = Some (w', r) -> ends k t w w' r.
Proof. apply unroll_sound. Qed.

(** A run has one end at most. *)
Lemma ends_det {R} (t : itree sysE R) (w w1 w2 : world) (r1 r2 : R) :
  ends k t w w1 r1 -> ends k t w w2 r2 -> w1 = w2 /\ r1 = r2.
Proof.
  unfold ends; intros H1 H2. rewrite H1 in H2.
  apply eutt_inv_Ret in H2. inversion H2; auto.
Qed.

(** A run that ends does not go on for ever. *)
Lemma ends_not_diverges {R} (t : itree sysE R) (w w' : world) (r : R) :
  ends k t w w' r -> ~ diverges k t w.
Proof.
  unfold ends, diverges; intros H1 H2. rewrite H1 in H2.
  eapply eutt_Ret_spin_abs; exact H2.
Qed.

Lemma ends_ret {R} (r : R) (w : world) : ends k (Ret r) w w r.
Proof. unfold ends, exec. rewrite interp_state_ret. reflexivity. Qed.

Lemma ends_trigger {T} (e : sysE T) (w : world) :
  ends k (ITree.trigger e) w (tick w e) (k (clock w) T e).
Proof. unfold ends, exec. rewrite interp_state_trigger. reflexivity. Qed.

Lemma ends_bind {A B} (t : itree sysE A) (f : A -> itree sysE B)
      (w w1 w2 : world) (a : A) (b : B) :
  ends k t w w1 a -> ends k (f a) w1 w2 b -> ends k (ITree.bind t f) w w2 b.
Proof.
  unfold ends, exec; intros H1 H2.
  rewrite interp_state_bind, H1, bind_ret_l. exact H2.
Qed.

(** One more turn of a loop whose body asks for it... *)
Lemma ends_iter_again {I R} (body : I -> itree sysE (I + R)) (i i' : I)
      (w w1 w2 : world) (r : R) :
  ends k (body i) w w1 (inl i') -> ends k (ITree.iter body i') w1 w2 r ->
  ends k (ITree.iter body i) w w2 r.
Proof.
  unfold ends, exec; intros H1 H2.
  rewrite unfold_iter, interp_state_bind, H1, bind_ret_l. cbn.
  rewrite interp_state_tau, tau_eutt. exact H2.
Qed.

(** ... and the last turn. *)
Lemma ends_iter_done {I R} (body : I -> itree sysE (I + R)) (i : I)
      (w w1 : world) (r : R) :
  ends k (body i) w w1 (inr r) -> ends k (ITree.iter body i) w w1 r.
Proof.
  unfold ends, exec; intros H1.
  rewrite unfold_iter, interp_state_bind, H1, bind_ret_l. cbn.
  rewrite interp_state_ret. reflexivity.
Qed.

(** A call followed by a decision on its answer. *)
Lemma ends_call {T R} (e : sysE T) (f : T -> itree sysE R) (w w' : world) (r : R) :
  ends k (f (k (clock w) T e)) (tick w e) w' r ->
  ends k (ITree.bind (ITree.trigger e) f) w w' r.
Proof. intros H. eapply ends_bind; [apply ends_trigger | exact H]. Qed.

(** [and_then] runs its continuation on a returned value only. *)
Lemma ends_and_then {A B} (t : M A) (f : A -> M B) (w w1 w2 : world) (a : A)
      (o : outcome B) :
  ends k t w w1 (Returned a) -> ends k (f a) w1 w2 o ->
  ends k (and_then t f) w w2 o.
Proof. intros H1 H2. unfold and_then. eapply ends_bind; [exact H1 | exact H2]. Qed.

Lemma ends_and_then_stop {A B} (t : M A) (f : A -> M B) (w w1 : world)
      (o : outcome A) :
  ends k t w w1 o -> stopped o -> ends k (and_then t f) w w1 (carry B o).
Proof.
  intros H1 Hs. unfold and_then. eapply ends_bind; [exact H1 |].
  destruct o; cbn in *; try contradiction; apply ends_ret.
Qed.

End Runs.

(* ===================================================================== *)
(** * The retry loops                                                    *)
(* ===================================================================== *)

Lemma clock_ticks {T} (e : sysE T) (n : nat) (w : world) :
  clock (ticks w e n) = (clock w + n)%nat.
Proof.
  revert w; induction n as [|n IH]; intros w; cbn.
  - now rewrite Nat.add_0_r.
  - rewrite IH. cbn. now rewrite Nat.add_succ_r.
Qed.

Lemma journal_ticks {T} (e : sysE T) (n : nat) (w : world) :
  journal (ticks w e n) = (journal w ++ repeat (call_of e) n)%list.
Proof.
  revert w; induction n as [|n IH]; intros w; cbn.
  - now rewrite app_nil_r.
  - rewrite IH. cbn. now rewrite <- app_assoc.
Qed.

Section Retry.

Variable k : kernel.

Context {I T R : Type}.
Variable ev : I -> sysE T.
Variable decide : T -> itree sysE (I + R).

(** If the first [n] answers send the loop round again with its state
    unchanged and the next one ends it with [r], the loop ends with [r]
    after [n + 1] calls, all the same. *)
Lemma ends_retry (i : I) (n : nat) (r : R) :
  forall w,
  (forall j, (j < n)%nat -> decide (k (clock w + j)%nat T (ev i)) = Ret (inl i)) ->
  decide (k (clock w + n)%nat T (ev i)) = Ret (inr r) ->
  ends k (retry_loop ev decide i) w (ticks w (ev i) (S n)) r.
Proof.
  induction n as [|n IH]; intros w Hagain Hdone.
  - rewrite Nat.add_0_r in Hdone.
    apply ends_iter_done. apply ends_call. rewrite Hdone. apply ends_ret.
  - apply ends_iter_again with (i' := i) (w1 := tick w (ev i)).
    + apply ends_call.
      specialize (Hagain O (Nat.lt_0_succ n)). rewrite Nat.add_0_r in Hagain.
      rewrite Hagain. apply ends_ret.
    + apply (IH (tick w (ev i))); cbn.
      * intros j Hj. rewrite <- Nat.add_succ_r. apply Hagain. lia.
      * rewrite <- Nat.add_succ_r. exact Hdone.
Qed.

(** If every answer sends the loop round again, the loop never ends. *)
Lemma diverges_retry (i : I) :
  forall w,
  (forall j, decide (k (clock w + j)%nat T (ev i)) = Ret (inl i)) ->
  diverges k (retry_loop ev decide i) w.
Proof.
  unfold diverges, exec, retry_loop. einit. ecofix CIH. intros w H.
  rewrite unfold_iter, interp_state_bind, interp_state_bind.
  rewrite interp_state_trigger_eqit. unfold answer.
  rewrite !bind_bind, bind_ret_l, bind_tau, bind_ret_l. cbn.
  pose proof (H O) as H0. rewrite Nat.add_0_r in H0. rewrite H0.
  rewrite interp_state_ret, bind_ret_l. cbn.
  rewrite interp_state_tau.
  rewrite (itree_eta ITree.spin). cbn.
  etau. rewrite tau_euttge.
  ebase. right. apply CIHL. intros j. cbn.
  rewrite <- Nat.add_succ_r. apply H.
Qed.

End Retry.

Section Diverging.

Variable k : kernel.

Lemma spin_tau {E R} : (ITree.spin : itree E R) ≅ Tau ITree.spin.
Proof. rewrite (itree_eta ITree.spin) at 1. reflexivity. Qed.

Lemma bind_spin {E A B} (f : A -> itree E B) : ITree.bind ITree.spin f ≈ ITree.spin.
Proof.
  einit. ecofix CIH.
  rewrite (@spin_tau E A), bind_tau, (@spin_tau E B).
  etau.
Qed.

(** A function whose first part never ends never ends... *)
Lemma diverges_and_then {A B} (t : M A) (f : A -> M B) (w : world) :
  diverges k t w -> diverges k (and_then t f) w.
Proof.
  unfold diverges, exec, and_then; intros H.
  rewrite interp_state_bind, H. apply bind_spin.
Qed.

(** ... and so does one whose first part returns to a rest that never ends. *)
Lemma diverges_after {A B} (t : M A) (f : A -> M B) (w w1 : world) (a : A) :
  ends k t w w1 (Returned a) -> diverges k (f a) w1 -> diverges k (and_then t f) w.
Proof.
  unfold ends, diverges, exec, and_then; intros H1 H2.
  rewrite interp_state_bind, H1, bind_ret_l. exact H2.
Qed.

End Diverging.

(** The state after [n] answers to [e], written out. *)
Lemma ticks_eq {T} (e : sysE T) (n : nat) (w : world) :
  ticks w e n =
  {| clock := clock w + n; journal := journal w ++ repeat (call_of e) n |}.
Proof.
  rewrite <- (clock_ticks e n w), <- (journal_ticks e n w).
  now destruct (ticks w e n).
Qed.

(* ===================================================================== *)
(** * The [switch (errno)] statements                                    *)
(* ===================================================================== *)

Lemma is_case_true (code : Z) (labels : list Z) :
  is_case code labels = true <-> In code labels.
Proof.
  unfold is_case. rewrite existsb_exists. split.
  - intros [x [Hin Heq]]. apply Z.eqb_eq in Heq. now subst.
  - intros Hin. exists code. split; [exact Hin | apply Z.eqb_refl].
Qed.

Lemma is_case_false (code : Z) (labels : list Z) :
  is_case code labels = false <-> ~ In code labels.
Proof.
  rewrite <- is_case_true. destruct (is_case code labels); split; congruence.
Qed.

(** Decide every [is_case] of the goal from the equations and disequations
    at hand. *)
Ltac switch_errno :=
  repeat match goal with
         | |- context [is_case ?c ?l] =>
             let H := fresh "Hcase" in
             first
               [ assert (H : is_case c l = true)
                   by (apply is_case_true; cbn; intuition congruence)
               | assert (H : is_case c l = false)
                   by (apply is_case_false; cbn; intuition congruence) ];
             rewrite H; clear H
         end.

Lemma linux_x86_64_ok : platform_ok linux_x86_64.
Proof.
  constructor; cbn; try lia; try discriminate.
  exists 3. split; [lia | reflexivity].
Qed.

Lemma bsd_like_ok : platform_ok bsd_like.
Proof.
  constructor; cbn; try lia; try discriminate.
  exists 2. split; [lia | reflexivity].
Qed.

(* ===================================================================== *)
(** * Creation, pairing and the failures of the kernel calls             *)
(* ===================================================================== *)

Section Classification.

Variable P : platform.
Variable k : kernel.

Lemma local_socket_new_fails (w : world) (code : Z) :
  k (clock w) _ (socket_call P) = failure code ->
  ends k (local_socket_new P) w (tick w (socket_call P))
    (if is_case code [EMFILE P; ENFILE P; ENOBUFS P; ENOMEM P]
     then Thrown (posix_fatal_error code) else Thrown (posix_error code)).
Proof.
  intros Hk. unfold local_socket_new. apply ends_call.
  fold (socket_call P). rewrite Hk. cbn.
  match goal with |- context [if ?b then _ else _] => destruct b end; apply ends_ret.
Qed.

Lemma pair_fails (w : world) (code : Z) (fds : Z * Z) :
  k (clock w) _ (socketpair_call P) = (failure code, fds) ->
  ends k (pair P) w (tick w (socketpair_call P))
    (if is_case code [EMFILE P; ENFILE P; ENOMEM P]
     then Thrown (posix_fatal_error code) else Thrown (posix_error code)).
Proof.
  intros Hk. unfold pair. apply ends_call.
  fold (socketpair_call P). rewrite Hk. cbn.
  match goal with |- context [if ?b then _ else _] => destruct b end; apply ends_ret.
Qed.

End Classification.

Section Loops.

Variable P : platform.
Variable k : kernel.

(** An [if] between two ends of a loop is an end of the loop. *)
Lemma if_Ret_inr {I R} (b : bool) (x y : R) :
  (if b then Ret (inr x) else Ret (inr y) : itree sysE (I + R))
  = Ret (inr (if b then x else y)).
Proof. now destruct b. Qed.

Ltac interrupted H :=
  intros j Hj; cbn; rewrite (proj1 H j Hj); cbn;
  now rewrite Z.eqb_refl.

Ltac answered H :=
  cbn; rewrite (proj2 H); cbn.

Lemma rc_not_failed (ret : sysret) : rc ret <> -1 -> (rc ret =? -1) = false.
Proof. intros H. now apply Z.eqb_neq. Qed.

Lemma eqb_not_EINTR (code : Z) :
  code <> EINTR P -> (code =? EINTR P) || false = false.
Proof. intros H. apply Z.eqb_neq in H. now rewrite H. Qed.

(** *** [bind] *)

Lemma bind_retry_succeeds (w : world) (sockfd : Z) (addr : sockaddr_un)
      (addrlen : Z) (n : nat) (ret : sysret) :
  rc ret <> -1 ->
  answers_after k w (Bind sockfd addr addrlen) n (failure (EINTR P)) ret ->
  ends k (bind_retry P sockfd addr addrlen) w
    (ticks w (Bind sockfd addr addrlen) (S n)) (Returned tt).
Proof.
  intros Hrc H.
  apply (ends_retry k (fun _ : unit => Bind sockfd addr addrlen) _ tt n).
  - interrupted H.
  - answered H. now rewrite (rc_not_failed _ Hrc).
Qed.

Lemma bind_retry_fails (w : world) (sockfd : Z) (addr : sockaddr_un)
      (addrlen : Z) (n : nat) (code : Z) :
  code <> EINTR P ->
  answers_after k w (Bind sockfd addr addrlen) n (failure (EINTR P)) (failure code) ->
  ends k (bind_retry P sockfd addr addrlen) w
    (ticks w (Bind sockfd addr addrlen) (S n))
    (if is_case code [ENOMEM P] then Thrown (posix_fatal_error code)
     else if is_case code [EBADF P] then Thrown posix_bad_descriptor
     else Thrown (posix_error code)).
Proof.
  intros Hcode H.
  apply (ends_retry k (fun _ : unit => Bind sockfd addr addrlen) _ tt n).
  - interrupted H.
  - answered H. rewrite (eqb_not_EINTR _ Hcode).
    now rewrite !if_Ret_inr.
Qed.

(** *** [connect] *)

Lemma connect_retry_succeeds (w : world) (sockfd : Z) (addr : sockaddr_un)
      (addrlen : Z) (n : nat) (ret : sysret) :
  rc ret <> -1 ->
  answers_after k w (Connect sockfd addr addrlen) n (failure (EINTR P)) ret ->
  ends k (connect_retry P sockfd addr addrlen) w
    (ticks w (Connect sockfd addr addrlen) (S n)) (Returned tt).
Proof.
  intros Hrc H.
  apply (ends_retry k (fun _ : unit => Connect sockfd addr addrlen) _ tt n).
  - interrupted H.
  - answered H. now rewrite (rc_not_failed _ Hrc).
Qed.

Lemma connect_retry_fails (w : world) (sockfd : Z) (addr : sockaddr_un)
      (addrlen : Z) (n : nat) (code : Z) :
  code <> EINTR P ->
  answers_after k w (Connect sockfd addr addrlen) n (failure (EINTR P)) (failure code) ->
  ends k (connect_retry P sockfd addr addrlen) w
    (ticks w (Connect sockfd addr addrlen) (S n))
    (if is_case code [EBADF P] then Thrown posix_bad_descriptor
     else Thrown (posix_error code)).
Proof.
  intros Hcode H.
  apply (ends_retry k (fun _ : unit => Connect sockfd addr addrlen) _ tt n).
  - interrupted H.
  - answered H. rewrite (eqb_not_EINTR _ Hcode).
    now rewrite !if_Ret_inr.
Qed.

(** *** [accept] *)

Lemma accept_retry_succeeds (w : world) (sockfd : Z) (n : nat) (ret : sysret) :
  rc ret <> -1 ->
  answers_after k w (accept_call P sockfd) n (failure (EINTR P)) ret ->
  ends k (accept_retry P sockfd) w
    (ticks w (accept_call P sockfd) (S n)) (Returned (rc ret)).
Proof.
  intros Hrc H.
  apply (ends_retry k (fun _ : unit => accept_call P sockfd) _ tt n).
  - interrupted H.
  - answered H. now rewrite (rc_not_failed _ Hrc).
Qed.

Lemma accept_retry_fails (w : world) (sockfd : Z) (n : nat) (code : Z) :
  code <> EINTR P ->
  answers_after k w (accept_call P sockfd) n (failure (EINTR P)) (failure code) ->
  ends k (accept_retry P sockfd) w
    (ticks w (accept_call P sockfd) (S n))
    (if is_case code [EMFILE P; ENFILE P; ENOBUFS P; ENOMEM P]
     then Thrown (posix_fatal_error code)
     else if is_case code [EBADF P] then Thrown posix_bad_descriptor
     else Thrown (posix_error code)).
Proof.
  intros Hcode H.
  apply (ends_retry k (fun _ : unit => accept_call P sockfd) _ tt n).
  - interrupted H.
  - answered H. rewrite (eqb_not_EINTR _ Hcode).
    now rewrite !if_Ret_inr.
Qed.

(** *** [sendmsg] *)

Lemma sendmsg_retry_succeeds (w : world) (sockfd : Z) (msg : msghdr)
      (flags : Z) (n : nat) (ret : sysret) :
  rc ret <> -1 ->
  answers_after k w (Sendmsg sockfd msg flags) n (failure (EINTR P)) ret ->
  ends k (sendmsg_retry P sockfd msg flags) w
    (ticks w (Sendmsg sockfd msg flags) (S n)) (Returned tt).
Proof.
  intros Hrc H.
  apply (ends_retry k (fun _ : unit => Sendmsg sockfd msg flags) _ tt n).
  - interrupted H.
  - answered H. now rewrite (rc_not_failed _ Hrc).
Qed.

Lemma sendmsg_retry_fails (w : world) (sockfd : Z) (msg : msghdr)
      (flags : Z) (n : nat) (code : Z) :
  code <> EINTR P ->
  answers_after k w (Sendmsg sockfd msg flags) n (failure (EINTR P)) (failure code) ->
  ends k (sendmsg_retry P sockfd msg flags) w
    (ticks w (Sendmsg sockfd msg flags) (S n))
    (if is_case code [ENOMEM P] then Thrown (posix_fatal_error code)
     else if is_case code [EBADF P] then Thrown posix_bad_descriptor
     else Thrown (posix_error code)).
Proof.
  intros Hcode H.
  apply (ends_retry k (fun _ : unit => Sendmsg sockfd msg flags) _ tt n).
  - interrupted H.
  - answered H. rewrite (eqb_not_EINTR _ Hcode).
    now rewrite !if_Ret_inr.
Qed.

(** *** [recvmsg]: an interrupted call leaves the header as it was. *)

Lemma recvmsg_retry_succeeds (w : world) (sockfd : Z) (msg : msghdr)
      (flags : Z) (n : nat) (ret : sysret) (msg' : msghdr) :
  rc ret <> -1 ->
  answers_after k w (Recvmsg sockfd msg flags) n (failure (EINTR P), msg) (ret, msg') ->
  ends k (recvmsg_retry P sockfd msg flags) w
    (ticks w (Recvmsg sockfd msg flags) (S n)) (Returned msg').
Proof.
  intros Hrc H.
  apply (ends_retry k (fun msg => Recvmsg sockfd msg flags) _ msg n).
  - interrupted H.
  - answered H. now rewrite (rc_not_failed _ Hrc).
Qed.

Lemma recvmsg_retry_fails (w : world) (sockfd : Z) (msg : msghdr)
      (flags : Z) (n : nat) (code : Z) (msg' : msghdr) :
  code <> EINTR P ->
  answers_after k w (Recvmsg sockfd msg flags) n (failure (EINTR P), msg)
    (failure code, msg') ->
  ends k (recvmsg_retry P sockfd msg flags) w
    (ticks w (Recvmsg sockfd msg flags) (S n))
    (if is_case code [ENOMEM P] then Thrown (posix_fatal_error code)
     else if is_case code [EBADF P] then Thrown posix_bad_descriptor
     else Thrown (posix_error code)).
Proof.
  intros Hcode H.
  apply (ends_retry k (fun msg => Recvmsg sockfd msg flags) _ msg n).
  - interrupted H.
  - answered H. rewrite (eqb_not_EINTR _ Hcode).
    now rewrite !if_Ret_inr.
Qed.

End Loops.

(* ===================================================================== *)
(** * What a loop can end with, whatever the kernel answers              *)
(* ===================================================================== *)

Section Ends.

Variable k : kernel.

(** A result a run ends with is a leaf of the program. *)
Lemma ends_leaf {R} (t : itree sysE R) (w w' : world) (r : R) :
  ends k t w w' r -> Leaf r t.
Proof.
  unfold ends, exec; intros H.
  assert (HL : Leaf (w', r) (interp_state (answer k) t w))
    by (rewrite H; apply Leaf_Ret).
  apply Leaf_interp_state_inv in HL. exact HL.
Qed.

(** If every answer that ends the loop ends it within [Q], every run of the
    loop that ends does so within [Q]. *)
Lemma retry_loop_ends_within {I T R} (ev : I -> sysE T)
      (decide : T -> itree sysE (I + R)) (Q : R -> Prop) :
  (forall a r, Leaf (inr r) (decide a) -> Q r) ->
  forall i w w' r, ends k (retry_loop ev decide i) w w' r -> Q r.
Proof.
  intros Hdecide i w w' r H. apply ends_leaf in H. unfold retry_loop in H.
  eapply (Leaf_iter_inv _ i (fun _ => True) Q); [| exact Logic.I | exact H].
  intros i0 x _ Hx.
  apply Leaf_bind_inv in Hx. destruct Hx as [a [_ Ha]].
  destruct x as [i1 | r1]; cbn; [exact Logic.I | eauto].
Qed.

End Ends.

Section Surfacing.

Variable P : platform.
Variable k : kernel.

(** Case analysis on the answer that ends a loop. *)
Ltac ending H :=
  cbn in H;
  repeat match type of H with
         | Leaf _ (if ?b then _ else _) => destruct b eqn:?
         | Leaf _ (let (_, _) := ?p in _) => destruct p
         end;
  apply Leaf_Ret_inv in H; inversion H; subst; cbn; auto.

Ltac not_EINTR :=
  match goal with
  | Hi : (?c =? EINTR P) || false = false |- ?c <> EINTR P =>
      rewrite orb_false_r in Hi; now apply Z.eqb_neq in Hi
  end.

Lemma bind_retry_not_interruption (sockfd : Z) (addr : sockaddr_un) (addrlen : Z)
      (w w' : world) (o : outcome unit) :
  ends k (bind_retry P sockfd addr addrlen) w w' o -> not_interruption P o.
Proof.
  apply (retry_loop_ends_within k (fun _ : unit => Bind sockfd addr addrlen) _
           (not_interruption P)).
  intros a r H. ending H; not_EINTR.
Qed.

Lemma connect_retry_not_interruption (sockfd : Z) (addr : sockaddr_un) (addrlen : Z)
      (w w' : world) (o : outcome unit) :
  ends k (connect_retry P sockfd addr addrlen) w w' o ->
  not_interruption P o /\ ~ is_fatal o.
Proof.
  apply (retry_loop_ends_within k (fun _ : unit => Connect sockfd addr addrlen) _
           (fun o => not_interruption P o /\ ~ is_fatal o)).
  intros a r H. ending H; split; auto; not_EINTR.
Qed.

Lemma accept_retry_not_interruption (sockfd : Z) (w w' : world) (o : outcome Z) :
  ends k (accept_retry P sockfd) w w' o -> not_interruption P o.
Proof.
  apply (retry_loop_ends_within k (fun _ : unit => accept_call P sockfd) _
           (not_interruption P)).
  intros a r H. ending H; not_EINTR.
Qed.

Lemma sendmsg_retry_not_interruption (sockfd : Z) (msg : msghdr) (flags : Z)
      (w w' : world) (o : outcome unit) :
  ends k (sendmsg_retry P sockfd msg flags) w w' o -> not_interruption P o.
Proof.
  apply (retry_loop_ends_within k (fun _ : unit => Sendmsg sockfd msg flags) _
           (not_interruption P)).
  intros a r H. ending H; not_EINTR.
Qed.

Lemma recvmsg_retry_not_interruption (sockfd : Z) (msg : msghdr) (flags : Z)
      (w w' : world) (o : outcome msghdr) :
  ends k (recvmsg_retry P sockfd msg flags) w w' o -> not_interruption P o.
Proof.
  apply (retry_loop_ends_within k (fun msg => Recvmsg sockfd msg flags) _
           (not_interruption P)).
  intros a r H. ending H; not_EINTR.
Qed.

End Surfacing.

(* ===================================================================== *)
(** * The size of the control buffer                                     *)
(* ===================================================================== *)

Section Alignment.

Variable P : platform.
Hypothesis P_ok : platform_ok P.

(** [CMSG_ALIGN] rounds up to a multiple of [sizeof(size_t)]. *)
Lemma CMSG_ALIGN_rounds (len : Z) :
  CMSG_ALIGN P len
  = (len + sizeof_size_t P - 1) / sizeof_size_t P * sizeof_size_t P.
Proof.
  destruct (ok_align P P_ok) as [e [He Ha]].
  unfold CMSG_ALIGN. rewrite <- Z.ldiff_land, Ha.
  replace (2 ^ e - 1) with (Z.ones e) by (rewrite Z.ones_equiv; lia).
  rewrite Z.ldiff_ones_r by exact He.
  now rewrite Z.shiftl_mul_pow2, Z.shiftr_div_pow2 by exact He.
Qed.

Lemma sizeof_size_t_pos : 0 < sizeof_size_t P.
Proof.
  destruct (ok_align P P_ok) as [e [He Ha]]. rewrite Ha.
  now apply Z.pow_pos_nonneg.
Qed.

Lemma CMSG_ALIGN_ge (len : Z) : len <= CMSG_ALIGN P len.
Proof.
  rewrite CMSG_ALIGN_rounds. pose proof sizeof_size_t_pos as Ha.
  pose proof (Z.div_mod (len + sizeof_size_t P - 1) (sizeof_size_t P)) as Hd.
  pose proof (Z.mod_pos_bound (len + sizeof_size_t P - 1) (sizeof_size_t P) Ha) as Hm.
  specialize (Hd ltac:(lia)). nia.
Qed.

(** The [static_assert]s of both transfer functions hold. *)
Lemma static_asserts_hold : static_asserts P = true.
Proof.
  unfold static_asserts, CMSG_SPACE, CMSG_LEN. cbv zeta.
  pose proof (CMSG_ALIGN_ge (sizeof_int P)) as Hi.
  pose proof (CMSG_ALIGN_ge (sizeof_cmsghdr P)) as Hh.
  pose proof (ok_int P P_ok) as Hint.
  rewrite !andb_true_iff, !Z.leb_le. lia.
Qed.

Lemma cmsghdr_fits : sizeof_cmsghdr P <= CMSG_SPACE P (sizeof_int P).
Proof.
  pose proof static_asserts_hold as H. unfold static_asserts in H. cbv zeta in H.
  rewrite !andb_true_iff, !Z.leb_le in H. tauto.
Qed.

(** [CMSG_FIRSTHDR] of the header the transfer functions set up is the
    start of [cmsg_buffer], never null. *)
Lemma rights_message_built (d : descriptor) :
  rights_message P d =
  Returned (store_first_cmsg (message_header P [Some 0])
              {| cmsg_len := CMSG_LEN P (sizeof_int P);
                 cmsg_level := SOL_SOCKET P;
                 cmsg_type := SCM_RIGHTS P;
                 cmsg_data := [fd d] |}).
Proof.
  unfold rights_message, CMSG_FIRSTHDR. cbn.
  pose proof cmsghdr_fits as H. apply Z.leb_le in H. now rewrite H.
Qed.

End Alignment.

(* ===================================================================== *)
(** * The member functions, from their parts                             *)
(* ===================================================================== *)

Section Composition.

Variable P : platform.
Variable k : kernel.

Lemma ends_and_then_return {A B} (t : M A) (b : B) (w w1 : world) (o : outcome A) :
  ends k t w w1 o ->
  ends k (and_then t (fun _ => Ret (Returned b))) w w1 (returning o b).
Proof.
  intros H. unfold and_then. eapply ends_bind; [exact H |].
  destruct o; cbn; apply ends_ret.
Qed.

Lemma ends_and_then_pure {A B} (o : outcome A) (a : A) (f : A -> M B)
      (w w1 : world) (r : outcome B) :
  o = Returned a -> ends k (f a) w w1 r -> ends k (and_then (Ret o) f) w w1 r.
Proof.
  intros -> H. eapply ends_and_then; [apply ends_ret | exact H].
Qed.

(** [bind] after the assertion passed, the socket was created and the
    address was built: it ends like its loop. *)
Lemma bind_ends (p : pathname) (w w0 w1 : world) (socket : local_socket)
      (addr : sockaddr_un) (addrlen : Z) (o : outcome unit) :
  assert_not_empty P p = Returned tt ->
  ends k (local_socket_new P) w w0 (Returned socket) ->
  build_address P p = Returned (addr, addrlen) ->
  ends k (bind_retry P (fd socket) addr addrlen) w0 w1 o ->
  ends k (bind P p) w w1 (returning o socket).
Proof.
  intros Hassert Hnew Haddr Hloop. unfold bind.
  eapply ends_and_then_pure; [exact Hassert |].
  eapply ends_and_then; [exact Hnew |].
  eapply ends_and_then_pure; [exact Haddr |]. cbn.
  apply ends_and_then_return. exact Hloop.
Qed.

Lemma connect_ends (p : pathname) (w w0 w1 : world) (socket : local_socket)
      (addr : sockaddr_un) (addrlen : Z) (o : outcome unit) :
  assert_not_empty P p = Returned tt ->
  ends k (local_socket_new P) w w0 (Returned socket) ->
  build_address P p = Returned (addr, addrlen) ->
  ends k (connect_retry P (fd socket) addr addrlen) w0 w1 o ->
  ends k (connect P p) w w1 (returning o socket).
Proof.
  intros Hassert Hnew Haddr Hloop. unfold connect.
  eapply ends_and_then_pure; [exact Hassert |].
  eapply ends_and_then; [exact Hnew |].
  eapply ends_and_then_pure; [exact Haddr |]. cbn.
  apply ends_and_then_return. exact Hloop.
Qed.

(** [accept] after its result socket was created: a loop that does not
    return a connection ends [accept] the same way. *)
Lemma accept_stops (this : local_socket) (w w0 w1 : world)
      (connection : local_socket) (o : outcome Z) :
  ends k (local_socket_new P) w w0 (Returned connection) ->
  ends k (accept_retry P (fd this)) w0 w1 o ->
  stopped o ->
  ends k (accept P this) w w1 (carry local_socket o).
Proof.
  intros Hnew Hloop Hstop. unfold accept.
  eapply ends_and_then; [exact Hnew |].
  apply ends_and_then_stop; assumption.
Qed.

(** [recv_descriptor] once its loop returned the header. *)
Lemma recv_descriptor_ends (this : local_socket) (w w0 w1 : world)
      (msg : msghdr) (o : outcome descriptor) :
  ends k (recvmsg_retry P (fd this) (message_header P [None])
            (or_if_defined 0 (MSG_CMSG_CLOEXEC P))) w w0 (Returned msg) ->
  ends k (extract_descriptor P empty_descriptor msg) w0 w1 o ->
  ends k (recv_descriptor P this) w w1 o.
Proof.
  intros Hloop Hextract. unfold recv_descriptor. cbv zeta.
  eapply ends_and_then; [exact Hloop | exact Hextract].
Qed.

End Composition.

(* ===================================================================== *)
(** * Interrupted calls                                                  *)
(* ===================================================================== *)

Section Interruptions.

Variable P : platform.

Ltac for_ever H :=
  intros j; cbn; rewrite (H j); cbn; now rewrite Z.eqb_refl.

Lemma bind_retry_transparent (sockfd : Z) (addr : sockaddr_un) (addrlen : Z) :
  retries_transparently P (Bind sockfd addr addrlen) (failure (EINTR P))
    (fun ret => rc ret <> -1) (fun _ => tt) (bind_retry P sockfd addr addrlen).
Proof.
  intros k w. split; [| split].
  - intros n last Hrc H. unfold answered. rewrite <- ticks_eq. now apply bind_retry_succeeds with last.
  - intros H.
    apply (diverges_retry k (fun _ : unit => Bind sockfd addr addrlen) _ tt).
    for_ever H.
  - intros w' o. apply bind_retry_not_interruption.
Qed.

Lemma connect_retry_transparent (sockfd : Z) (addr : sockaddr_un) (addrlen : Z) :
  retries_transparently P (Connect sockfd addr addrlen) (failure (EINTR P))
    (fun ret => rc ret <> -1) (fun _ => tt) (connect_retry P sockfd addr addrlen).
Proof.
  intros k w. split; [| split].
  - intros n last Hrc H. unfold answered. rewrite <- ticks_eq. now apply connect_retry_succeeds with last.
  - intros H.
    apply (diverges_retry k (fun _ : unit => Connect sockfd addr addrlen) _ tt).
    for_ever H.
  - intros w' o H. now apply connect_retry_not_interruption in H.
Qed.

Lemma accept_retry_transparent (sockfd : Z) :
  retries_transparently P (accept_call P sockfd) (failure (EINTR P))
    (fun ret => rc ret <> -1) rc (accept_retry P sockfd).
Proof.
  intros k w. split; [| split].
  - intros n last Hrc H. unfold answered. rewrite <- ticks_eq. now apply accept_retry_succeeds.
  - intros H.
    apply (diverges_retry k (fun _ : unit => accept_call P sockfd) _ tt).
    for_ever H.
  - intros w' o. apply accept_retry_not_interruption.
Qed.

Lemma sendmsg_retry_transparent (sockfd : Z) (msg : msghdr) (flags : Z) :
  retries_transparently P (Sendmsg sockfd msg flags) (failure (EINTR P))
    (fun ret => rc ret <> -1) (fun _ => tt) (sendmsg_retry P sockfd msg flags).
Proof.
  intros k w. split; [| split].
  - intros n last Hrc H. unfold answered. rewrite <- ticks_eq. now apply sendmsg_retry_succeeds with last.
  - intros H.
    apply (diverges_retry k (fun _ : unit => Sendmsg sockfd msg flags) _ tt).
    for_ever H.
  - intros w' o. apply sendmsg_retry_not_interruption.
Qed.

Lemma recvmsg_retry_transparent (sockfd : Z) (msg : msghdr) (flags : Z) :
  retries_transparently P (Recvmsg sockfd msg flags) (failure (EINTR P), msg)
    (fun answer => rc (fst answer) <> -1) snd (recvmsg_retry P sockfd msg flags).
Proof.
  intros k w. split; [| split].
  - intros n [ret msg'] Hrc H. unfold answered. rewrite <- ticks_eq.
    now apply recvmsg_retry_succeeds with ret.
  - intros H.
    apply (diverges_retry k (fun msg => Recvmsg sockfd msg flags) _ msg).
    for_ever H.
  - intros w' o. apply recvmsg_retry_not_interruption.
Qed.

End Interruptions.

(* ===================================================================== *)
(** * The calls of a loop                                                *)
(* ===================================================================== *)

Section Calls.

Variable k : kernel.

(** A loop that issues the call [e] and decides on the answer without
    another call issues nothing but [e], whatever the kernel answers. *)
Lemma retry_loop_calls {T R} (e : sysE T) (decide : T -> itree sysE (unit + R)) :
  (forall a, exists x, decide a = Ret x) ->
  forall w w' r,
    ends k (retry_loop (fun _ : unit => e) decide tt) w w' r ->
    exists m, journal w' = (journal w ++ repeat (call_of e) m)%list.
Proof.
  intros Hpure w w' r H. unfold ends, exec, retry_loop in H.
  assert (HL : Leaf (w', r)
                 (interp_state (answer k)
                    (ITree.iter (fun _ : unit => ITree.bind (ITree.trigger e) decide) tt) w))
    by (rewrite H; apply Leaf_Ret).
  pose (RS := fun s : world => exists m, journal s = (journal w ++ repeat (call_of e) m)%list).
  apply (Leaf_interp_state_iter_inv (answer k) _ RS (fun _ => True) (fun _ => True))
    in HL; [exact (proj1 HL) | | exists O; cbn; now rewrite app_nil_r | exact Logic.I].
  intros s [] [m Hs] _ sx' Hsx'.
  destruct (Hpure (k (clock s) T e)) as [x Hx].
  assert (Hrun : ends k (ITree.bind (ITree.trigger e) decide) s (tick s e) x)
    by (apply ends_call; rewrite Hx; apply ends_ret).
  unfold ends, exec in Hrun. rewrite Hrun in Hsx'. apply Leaf_Ret_inv in Hsx'.
  subst sx'. split; cbn.
  - exists (S m). unfold tick; cbn [journal]. rewrite Hs, <- app_assoc. f_equal.
    cbn. now rewrite repeat_cons.
  - now destruct x.
Qed.

End Calls.

(* ===================================================================== *)
(** * C1: the message [send_descriptor] builds                           *)
(* ===================================================================== *)

(** C1.  On a platform whose headers are sound, every message
    [send_descriptor] builds has exactly one ordinary payload byte (one
    [iovec] of length one) and, in a control buffer with room for nothing
    more, exactly one control message, whose level is [SOL_SOCKET], whose
    type is [SCM_RIGHTS], whose declared length is that of a header and one
    [int], and whose payload is the one [int] [d.fd()], the handle value of
    the descriptor being sent.  [send_descriptor] is the [sendmsg] loop on
    that message, and every call of every run that ends is [sendmsg] of that
    message on the socket. *)
Theorem send_descriptor_builds_one_rights_record
  (P : platform) (this : local_socket) (d : descriptor) :
  platform_ok P ->
  exists (msg : msghdr) (iov : iovec) (byte : option Z) (cmsg : cmsghdr),
    rights_message P d = Returned msg
    /\ send_descriptor P this d ≅ sendmsg_retry P (fd this) msg 0
    /\ (forall k w w' o,
           ends k (send_descriptor P this d) w w' o ->
           exists m, journal w'
                     = (journal w ++ repeat (call_of (Sendmsg (fd this) msg 0)) m)%list)
    /\ msg_iov msg = [iov] /\ msg_iovlen msg = 1
    /\ iov_base iov = [byte] /\ iov_len iov = 1
    /\ msg_control msg
       = Some {| capacity := CMSG_SPACE P (sizeof_int P); records := [cmsg] |}
    /\ msg_controllen msg = CMSG_SPACE P (sizeof_int P)
    /\ cmsg_len cmsg = CMSG_LEN P (sizeof_int P)
    /\ cmsg_len cmsg
       = CMSG_LEN P 0 + sizeof_int P * Z.of_nat (List.length (cmsg_data cmsg))
    /\ cmsg_level cmsg = SOL_SOCKET P
    /\ cmsg_type cmsg = SCM_RIGHTS P
    /\ cmsg_data cmsg = [fd d].
Proof.
  intros P_ok.
  pose proof (rights_message_built P P_ok d) as Hmsg.
  assert (Hsend :
            send_descriptor P this d
            ≅ sendmsg_retry P (fd this)
                (store_first_cmsg (message_header P [Some 0])
                   {| cmsg_len := CMSG_LEN P (sizeof_int P);
                      cmsg_level := SOL_SOCKET P;
                      cmsg_type := SCM_RIGHTS P;
                      cmsg_data := [fd d] |}) 0).
  { unfold send_descriptor, and_then. rewrite Hmsg, bind_ret_l. reflexivity. }
  eexists. exists {| iov_base := [Some 0]; iov_len := 1 |}, (Some 0). eexists.
  split; [exact Hmsg |]. split; [exact Hsend |]. split.
  - intros k w w' o H. unfold ends, exec in H. rewrite Hsend in H.
    apply (retry_loop_calls k (Sendmsg (fd this) _ 0) _) in H; [exact H |].
    intros a. cbn.
    repeat match goal with |- context [if ?b then _ else _] => destruct b end;
      eexists; reflexivity.
  - cbn. repeat split; try reflexivity.
    cbn. unfold CMSG_LEN. lia.
Qed.

(** C1 at work: Linux, the socket 5, the descriptor 6. *)
Lemma send_descriptor_builds_one_rights_record_witness :
  platform_ok linux_x86_64 /\
  exists msg,
    rights_message linux_x86_64 (assign empty_descriptor 6) = Returned msg
    /\ msg_controllen msg = 24
    /\ msg_control msg
       = Some {| capacity := 24;
                 records := [{| cmsg_len := 20; cmsg_level := 1; cmsg_type := 1;
                                cmsg_data := [6] |}] |}.
Proof.
  split; [exact linux_x86_64_ok |].
  destruct (send_descriptor_builds_one_rights_record linux_x86_64
              (assign empty_descriptor 5) (assign empty_descriptor 6)
              linux_x86_64_ok)
    as [msg [iov [byte [cmsg [Hmsg _]]]]].
  exists msg. split; [exact Hmsg |].
  vm_compute in Hmsg. inversion Hmsg. split; reflexivity.
Defined.

(* ===================================================================== *)
(** * Receiving                                                          *)
(* ===================================================================== *)

Section Receiving.

Variable P : platform.
Variable k : kernel.
Variable this : local_socket.

Lemma recvmsg_received (w : world) (n : nat) (ret : sysret) (msg' : msghdr) :
  rc ret <> -1 ->
  answers_after k w (recvmsg_call P this) n
    (failure (EINTR P), message_header P [None]) (ret, msg') ->
  ends k (recvmsg_retry P (fd this) (message_header P [None])
            (or_if_defined 0 (MSG_CMSG_CLOEXEC P)))
    w (received P this w n) (Returned msg').
Proof.
  intros Hrc H. unfold received, answered. rewrite <- ticks_eq.
  now apply recvmsg_retry_succeeds with ret.
Qed.

Lemma extract_nothing (msg : msghdr) :
  no_rights_record P msg ->
  extract_descriptor P empty_descriptor msg = return_received P empty_descriptor.
Proof.
  unfold extract_descriptor. intros [Hnull | [cmsg [Hat Hlen]]].
  - now rewrite Hnull.
  - rewrite Hat. apply Z.eqb_neq in Hlen. now rewrite Hlen.
Qed.

Lemma recv_descriptor_nothing (w : world) (n : nat) (ret : sysret) (msg' : msghdr) :
  rc ret <> -1 ->
  answers_after k w (recvmsg_call P this) n
    (failure (EINTR P), message_header P [None]) (ret, msg') ->
  no_rights_record P msg' ->
  (MSG_CMSG_CLOEXEC P = None ->
   k (clock (received P this w n)) _ (Cloexec empty_descriptor true) = None) ->
  ends k (recv_descriptor P this) w
    (match MSG_CMSG_CLOEXEC P with
     | Some _ => received P this w n
     | None => tick (received P this w n) (Cloexec empty_descriptor true)
     end)
    (Returned empty_descriptor).
Proof.
  intros Hrc H Hno Hcloexec.
  eapply recv_descriptor_ends; [apply (recvmsg_received w n ret msg' Hrc H) |].
  rewrite (extract_nothing msg' Hno). unfold return_received.
  destruct (MSG_CMSG_CLOEXEC P) as [bit|].
  - apply ends_ret.
  - eapply ends_and_then; [| apply ends_ret].
    unfold cloexec. apply ends_call. rewrite (Hcloexec eq_refl). apply ends_ret.
Qed.

Lemma recv_descriptor_mismatch (w : world) (n : nat) (ret : sysret) (msg' : msghdr)
      (cmsg : cmsghdr) :
  rc ret <> -1 ->
  answers_after k w (recvmsg_call P this) n
    (failure (EINTR P), message_header P [None]) (ret, msg') ->
  CMSG_FIRSTHDR P msg' = cmsg_at cmsg ->
  cmsg_len cmsg = CMSG_LEN P (sizeof_int P) ->
  cmsg_level cmsg <> SOL_SOCKET P \/ cmsg_type cmsg <> SCM_RIGHTS P ->
  ends k (recv_descriptor P this) w (received P this w n)
    (Thrown (std_logic_error
               (if cmsg_level cmsg =? SOL_SOCKET P
                then "invalid cmsg_type" else "invalid cmsg_level"))).
Proof.
  intros Hrc H Hat Hlen Htags.
  eapply recv_descriptor_ends; [apply (recvmsg_received w n ret msg' Hrc H) |].
  unfold extract_descriptor. rewrite Hat, Hlen, Z.eqb_refl.
  destruct (Z.eqb_spec (cmsg_level cmsg) (SOL_SOCKET P)) as [Hlevel | Hlevel]; cbn.
  - destruct Htags as [Hl | Ht]; [contradiction |].
    apply Z.eqb_neq in Ht. rewrite Ht. cbn. apply ends_ret.
  - apply ends_ret.
Qed.

End Receiving.

(* ===================================================================== *)
(** * C2, C3, C10: what [recv_descriptor] makes of what it received      *)
(* ===================================================================== *)

(** C2.  The claim holds where [MSG_CMSG_CLOEXEC] is defined and fails where
    it is not.  The peer sent the payload byte and no control message (or a
    control message of another length than that of one [int] record), and
    [recvmsg] succeeded after one interruption.  Built for Linux,
    [recv_descriptor] returns the empty descriptor right after the [recvmsg]
    calls.  Built without [MSG_CMSG_CLOEXEC], the same function goes on to
    call [result.cloexec(true)] on the empty result: the call stands outside
    the [if] that extracts a descriptor.  When that call reports that there
    is no handle to flag, [recv_descriptor] throws [posix::bad_descriptor],
    and no run returns a descriptor. *)
Theorem recv_descriptor_without_rights_record_throws_in_the_fallback :
  no_rights_record bsd_like (header_without_control bsd_like)
  /\ ends (script [uniform (failure 4); receiving 1 (header_without_control bsd_like)]
             (cloexec_throws posix_bad_descriptor))
       (recv_descriptor bsd_like (assign empty_descriptor 5)) boot
       (tick (received bsd_like (assign empty_descriptor 5) boot 1)
          (Cloexec empty_descriptor true))
       (Thrown posix_bad_descriptor)
  /\ (forall w' d,
        ~ ends (script [uniform (failure 4);
                        receiving 1 (header_without_control bsd_like)]
                  (cloexec_throws posix_bad_descriptor))
            (recv_descriptor bsd_like (assign empty_descriptor 5)) boot w' (Returned d))
  /\ no_rights_record bsd_like
       (header_with_control bsd_like
          {| cmsg_len := 20; cmsg_level := 65535; cmsg_type := 1; cmsg_data := [7; 8] |})
  /\ ends (script [receiving 1
                     (header_with_control bsd_like
                        {| cmsg_len := 20; cmsg_level := 65535; cmsg_type := 1;
                           cmsg_data := [7; 8] |})]
             (cloexec_throws posix_bad_descriptor))
       (recv_descriptor bsd_like (assign empty_descriptor 5)) boot
       (tick (received bsd_like (assign empty_descriptor 5) boot 0)
          (Cloexec empty_descriptor true))
       (Thrown posix_bad_descriptor)
  /\ ends (script [uniform (failure 4);
                   receiving 1 (header_without_control linux_x86_64)]
             (cloexec_throws posix_bad_descriptor))
       (recv_descriptor linux_x86_64 (assign empty_descriptor 5)) boot
       (received linux_x86_64 (assign empty_descriptor 5) boot 1)
       (Returned empty_descriptor).
Proof.
  assert (Hthrows :
            ends (script [uniform (failure 4);
                          receiving 1 (header_without_control bsd_like)]
                    (cloexec_throws posix_bad_descriptor))
              (recv_descriptor bsd_like (assign empty_descriptor 5)) boot
              (tick (received bsd_like (assign empty_descriptor 5) boot 1)
                 (Cloexec empty_descriptor true))
              (Thrown posix_bad_descriptor))
    by (apply (run_ends _ 10); vm_compute; reflexivity).
  split; [left; reflexivity |].
  split; [exact Hthrows |].
  split.
  { intros w' d Hreturns.
    destruct (ends_det _ _ _ _ _ _ _ Hthrows Hreturns) as [_ Habs]. discriminate. }
  split.
  { right. eexists. split; [reflexivity | cbn; lia]. }
  split; apply (run_ends _ 10); vm_compute; reflexivity.
Qed.

(** C3.  After a successful receive, if the first control message has the
    length of one [int] record but its level is not [SOL_SOCKET] or its type
    is not [SCM_RIGHTS], [recv_descriptor] ends by throwing
    [std::logic_error], before any other call: an exception that is none of
    [posix::error], [posix::fatal_error] and [posix::bad_descriptor].  It
    returns no descriptor. *)
Theorem recv_descriptor_foreign_record_is_logic_error
  (P : platform) (k : kernel) (this : local_socket) (w : world) (n : nat)
  (ret : sysret) (msg' : msghdr) (cmsg : cmsghdr) :
  rc ret <> -1 ->
  answers_after k w (recvmsg_call P this) n
    (failure (EINTR P), message_header P [None]) (ret, msg') ->
  CMSG_FIRSTHDR P msg' = cmsg_at cmsg ->
  cmsg_len cmsg = CMSG_LEN P (sizeof_int P) ->
  cmsg_level cmsg <> SOL_SOCKET P \/ cmsg_type cmsg <> SCM_RIGHTS P ->
  exists what,
    ends k (recv_descriptor P this) w (received P this w n)
      (Thrown (std_logic_error what))
    /\ (forall code, std_logic_error what <> posix_error code)
    /\ (forall code, std_logic_error what <> posix_fatal_error code)
    /\ std_logic_error what <> posix_bad_descriptor
    /\ (forall w' d, ~ ends k (recv_descriptor P this) w w' (Returned d)).
Proof.
  intros Hrc H Hat Hlen Htags.
  pose proof (recv_descriptor_mismatch P k this w n ret msg' cmsg Hrc H Hat Hlen Htags)
    as Hends.
  eexists. split; [exact Hends |]. repeat split; try discriminate.
  intros w' d Hret.
  destruct (ends_det k _ _ _ _ _ _ Hends Hret) as [_ Habs]. discriminate.
Qed.

(** C3 at work on Linux: a control message of the right length whose type is
    2 ([SCM_CREDENTIALS]) instead of [SCM_RIGHTS]. *)
Lemma recv_descriptor_foreign_record_is_logic_error_witness :
  exists what,
    ends (script [receiving 1
                    (header_with_control linux_x86_64
                       {| cmsg_len := 20; cmsg_level := 1; cmsg_type := 2;
                          cmsg_data := [7] |})]
            (uniform (success 0)))
      (recv_descriptor linux_x86_64 (assign empty_descriptor 5)) boot
      (received linux_x86_64 (assign empty_descriptor 5) boot 0)
      (Thrown (std_logic_error what)).
Proof.
  destruct (recv_descriptor_foreign_record_is_logic_error linux_x86_64
              (script [receiving 1
                         (header_with_control linux_x86_64
                            {| cmsg_len := 20; cmsg_level := 1; cmsg_type := 2;
                               cmsg_data := [7] |})]
                 (uniform (success 0)))
              (assign empty_descriptor 5) boot 0 (success 1)
              (header_with_control linux_x86_64
                 {| cmsg_len := 20; cmsg_level := 1; cmsg_type := 2;
                    cmsg_data := [7] |})
              {| cmsg_len := 20; cmsg_level := 1; cmsg_type := 2; cmsg_data := [7] |})
    as [what [Hends _]].
  - cbn. lia.
  - split; [intros j Hj; lia | reflexivity].
  - reflexivity.
  - reflexivity.
  - right. cbn. lia.
  - exists what. exact Hends.
Defined.

(** C10.  The end of the stream and a receive without a descriptor end
    [recv_descriptor] the same way: nothing looks at the byte count beyond
    [rc == -1].  Built for Linux, [recvmsg] returning 0 with no control
    message gives the empty descriptor, as it does returning 1.  Built
    without [MSG_CMSG_CLOEXEC], both runs go on to [result.cloexec(true)] on
    the empty result; when that call reports that there is no handle to
    flag, both throw [posix::bad_descriptor] after the same calls, and the
    run at the end of the stream returns no descriptor. *)
Theorem recv_descriptor_end_of_stream_throws_in_the_fallback :
  rc (fst (receiving 0 (header_without_control bsd_like) _
             (recvmsg_call bsd_like (assign empty_descriptor 5)))) = 0
  /\ CMSG_FIRSTHDR bsd_like (header_without_control bsd_like) = cmsg_null
  /\ ends (script [receiving 0 (header_without_control bsd_like)]
             (cloexec_throws posix_bad_descriptor))
       (recv_descriptor bsd_like (assign empty_descriptor 5)) boot
       (tick (received bsd_like (assign empty_descriptor 5) boot 0)
          (Cloexec empty_descriptor true))
       (Thrown posix_bad_descriptor)
  /\ ends (script [receiving 1 (header_without_control bsd_like)]
             (cloexec_throws posix_bad_descriptor))
       (recv_descriptor bsd_like (assign empty_descriptor 5)) boot
       (tick (received bsd_like (assign empty_descriptor 5) boot 0)
          (Cloexec empty_descriptor true))
       (Thrown posix_bad_descriptor)
  /\ (forall w' d,
        ~ ends (script [receiving 0 (header_without_control bsd_like)]
                  (cloexec_throws posix_bad_descriptor))
            (recv_descriptor bsd_like (assign empty_descriptor 5)) boot w' (Returned d))
  /\ ends (script [receiving 0 (header_without_control linux_x86_64)]
             (cloexec_throws posix_bad_descriptor))
       (recv_descriptor linux_x86_64 (assign empty_descriptor 5)) boot
       (received linux_x86_64 (assign empty_descriptor 5) boot 0)
       (Returned empty_descriptor)
  /\ ends (script [receiving 1 (header_without_control linux_x86_64)]
             (cloexec_throws posix_bad_descriptor))
       (recv_descriptor linux_x86_64 (assign empty_descriptor 5)) boot
       (received linux_x86_64 (assign empty_descriptor 5) boot 0)
       (Returned empty_descriptor).
Proof.
  assert (Hthrows :
            ends (script [receiving 0 (header_without_control bsd_like)]
                    (cloexec_throws posix_bad_descriptor))
              (recv_descriptor bsd_like (assign empty_descriptor 5)) boot
              (tick (received bsd_like (assign empty_descriptor 5) boot 0)
                 (Cloexec empty_descriptor true))
              (Thrown posix_bad_descriptor))
    by (apply (run_ends _ 10); vm_compute; reflexivity).
  split; [reflexivity |]. split; [reflexivity |].
  split; [exact Hthrows |].
  split; [apply (run_ends _ 10); vm_compute; reflexivity |].
  split.
  { intros w' d Hreturns.
    destruct (ends_det _ _ _ _ _ _ _ Hthrows Hreturns) as [_ Habs]. discriminate. }
  split; apply (run_ends _ 10); vm_compute; reflexivity.
Qed.

(* ===================================================================== *)
(** * C4: interrupted calls are issued again                             *)
(* ===================================================================== *)

Section Resuming.

Variable P : platform.
Variable k : kernel.

Lemma bind_resumes (p : pathname) (w w0 : world) (socket : local_socket)
      (addr : sockaddr_un) (addrlen : Z) (n : nat) (last : sysret) :
  assert_not_empty P p = Returned tt ->
  ends k (local_socket_new P) w w0 (Returned socket) ->
  build_address P p = Returned (addr, addrlen) ->
  rc last <> -1 ->
  answers_after k w0 (Bind (fd socket) addr addrlen) n (failure (EINTR P)) last ->
  ends k (bind P p) w (answered w0 (Bind (fd socket) addr addrlen) n) (Returned socket).
Proof.
  intros Hassert Hnew Haddr Hrc H.
  apply (bind_ends P k p w w0 _ socket addr addrlen (Returned tt)); auto.
  unfold answered. rewrite <- ticks_eq. now apply bind_retry_succeeds with last.
Qed.

Lemma connect_resumes (p : pathname) (w w0 : world) (socket : local_socket)
      (addr : sockaddr_un) (addrlen : Z) (n : nat) (last : sysret) :
  assert_not_empty P p = Returned tt ->
  ends k (local_socket_new P) w w0 (Returned socket) ->
  build_address P p = Returned (addr, addrlen) ->
  rc last <> -1 ->
  answers_after k w0 (Connect (fd socket) addr addrlen) n (failure (EINTR P)) last ->
  ends k (connect P p) w (answered w0 (Connect (fd socket) addr addrlen) n)
    (Returned socket).
Proof.
  intros Hassert Hnew Haddr Hrc H.
  apply (connect_ends P k p w w0 _ socket addr addrlen (Returned tt)); auto.
  unfold answered. rewrite <- ticks_eq. now apply connect_retry_succeeds with last.
Qed.

Lemma accept_resumes (this : local_socket) (w w0 : world) (connection : local_socket)
      (n : nat) (last : sysret) :
  ends k (local_socket_new P) w w0 (Returned connection) ->
  rc last <> -1 ->
  answers_after k w0 (accept_call P (fd this)) n (failure (EINTR P)) last ->
  (accept_is_atomic P = false ->
   k (clock (answered w0 (accept_call P (fd this)) n)) _
     (Cloexec (assign connection (rc last)) true) = None) ->
  ends k (accept P this) w
    (if accept_is_atomic P then answered w0 (accept_call P (fd this)) n
     else tick (answered w0 (accept_call P (fd this)) n)
            (Cloexec (assign connection (rc last)) true))
    (Returned (assign connection (rc last))).
Proof.
  intros Hnew Hrc H Hcloexec. unfold accept.
  eapply ends_and_then; [exact Hnew |].
  apply ends_and_then
    with (w1 := answered w0 (accept_call P (fd this)) n) (a := rc last).
  - unfold answered. rewrite <- ticks_eq. now apply accept_retry_succeeds.
  - cbv zeta. destruct (accept_is_atomic P).
    + apply ends_ret.
    + eapply ends_and_then; [| apply ends_ret].
      unfold cloexec. apply ends_call. rewrite (Hcloexec eq_refl). apply ends_ret.
Qed.

Lemma send_descriptor_resumes (this : local_socket) (d : descriptor) (msg : msghdr)
      (w : world) (n : nat) (last : sysret) :
  rights_message P d = Returned msg ->
  rc last <> -1 ->
  answers_after k w (Sendmsg (fd this) msg 0) n (failure (EINTR P)) last ->
  ends k (send_descriptor P this d) w (answered w (Sendmsg (fd this) msg 0) n)
    (Returned tt).
Proof.
  intros Hmsg Hrc H. unfold send_descriptor.
  eapply ends_and_then_pure; [exact Hmsg |].
  unfold answered. rewrite <- ticks_eq. now apply sendmsg_retry_succeeds with last.
Qed.

(** The same functions when the kernel reports [EINTR] for ever. *)

Lemma bind_hangs (p : pathname) (w w0 : world) (socket : local_socket)
      (addr : sockaddr_un) (addrlen : Z) :
  assert_not_empty P p = Returned tt ->
  ends k (local_socket_new P) w w0 (Returned socket) ->
  build_address P p = Returned (addr, addrlen) ->
  always_answers k w0 (Bind (fd socket) addr addrlen) (failure (EINTR P)) ->
  diverges k (bind P p) w.
Proof.
  intros Hassert Hnew Haddr H. unfold bind.
  eapply diverges_after; [rewrite Hassert; apply ends_ret |].
  eapply diverges_after; [exact Hnew |].
  eapply diverges_after; [rewrite Haddr; apply ends_ret |]. cbn.
  apply diverges_and_then.
  now apply bind_retry_transparent.
Qed.

Lemma connect_hangs (p : pathname) (w w0 : world) (socket : local_socket)
      (addr : sockaddr_un) (addrlen : Z) :
  assert_not_empty P p = Returned tt ->
  ends k (local_socket_new P) w w0 (Returned socket) ->
  build_address P p = Returned (addr, addrlen) ->
  always_answers k w0 (Connect (fd socket) addr addrlen) (failure (EINTR P)) ->
  diverges k (connect P p) w.
Proof.
  intros Hassert Hnew Haddr H. unfold connect.
  eapply diverges_after; [rewrite Hassert; apply ends_ret |].
  eapply diverges_after; [exact Hnew |].
  eapply diverges_after; [rewrite Haddr; apply ends_ret |]. cbn.
  apply diverges_and_then.
  now apply connect_retry_transparent.
Qed.

Lemma accept_hangs (this : local_socket) (w w0 : world) (connection : local_socket) :
  ends k (local_socket_new P) w w0 (Returned connection) ->
  always_answers k w0 (accept_call P (fd this)) (failure (EINTR P)) ->
  diverges k (accept P this) w.
Proof.
  intros Hnew H. unfold accept.
  eapply diverges_after; [exact Hnew |].
  apply diverges_and_then.
  now apply accept_retry_transparent.
Qed.

Lemma send_descriptor_hangs (this : local_socket) (d : descriptor) (msg : msghdr)
      (w : world) :
  rights_message P d = Returned msg ->
  always_answers k w (Sendmsg (fd this) msg 0) (failure (EINTR P)) ->
  diverges k (send_descriptor P this d) w.
Proof.
  intros Hmsg H. unfold send_descriptor.
  eapply diverges_after; [rewrite Hmsg; apply ends_ret |].
  now apply sendmsg_retry_transparent.
Qed.

Lemma recv_descriptor_hangs (this : local_socket) (w : world) :
  always_answers k w (recvmsg_call P this)
    (failure (EINTR P), message_header P [None]) ->
  diverges k (recv_descriptor P this) w.
Proof.
  intros H. unfold recv_descriptor. cbv zeta.
  apply diverges_and_then.
  now apply recvmsg_retry_transparent.
Qed.

End Resuming.

(** C4.  The [retry:] loop of each of [bind], [connect], [accept],
    [send_descriptor] and [recv_descriptor] retries its call transparently:
    each time the kernel reports [EINTR] the same call is issued again with
    the same arguments (for [recvmsg], with the header as the interrupted
    call left it), for any number [n] of interruptions, and the function goes
    on with the answer that follows; if the kernel reports [EINTR] for ever
    the loop calls for ever; and no run of a loop ends with an exception that
    carries [EINTR].  Each function, once it reached its loop, returns its
    result after [n] interruptions followed by a success, and never returns
    if the kernel reports [EINTR] for ever. *)
Theorem interrupted_calls_are_retried (P : platform) :
  (* the loops *)
  ((forall sockfd addr addrlen,
       retries_transparently P (Bind sockfd addr addrlen) (failure (EINTR P))
         (fun ret => rc ret <> -1) (fun _ => tt) (bind_retry P sockfd addr addrlen))
   /\ (forall sockfd addr addrlen,
          retries_transparently P (Connect sockfd addr addrlen) (failure (EINTR P))
            (fun ret => rc ret <> -1) (fun _ => tt) (connect_retry P sockfd addr addrlen))
   /\ (forall sockfd,
          retries_transparently P (accept_call P sockfd) (failure (EINTR P))
            (fun ret => rc ret <> -1) rc (accept_retry P sockfd))
   /\ (forall sockfd msg flags,
          retries_transparently P (Sendmsg sockfd msg flags) (failure (EINTR P))
            (fun ret => rc ret <> -1) (fun _ => tt) (sendmsg_retry P sockfd msg flags))
   /\ (forall sockfd msg flags,
          retries_transparently P (Recvmsg sockfd msg flags) (failure (EINTR P), msg)
            (fun answer => rc (fst answer) <> -1) snd (recvmsg_retry P sockfd msg flags)))
  (* the functions *)
  /\ (forall k p w w0 socket addr addrlen n last,
         assert_not_empty P p = Returned tt ->
         ends k (local_socket_new P) w w0 (Returned socket) ->
         build_address P p = Returned (addr, addrlen) ->
         rc last <> -1 ->
         (answers_after k w0 (Bind (fd socket) addr addrlen) n (failure (EINTR P)) last ->
          ends k (bind P p) w (answered w0 (Bind (fd socket) addr addrlen) n)
            (Returned socket))
         /\ (answers_after k w0 (Connect (fd socket) addr addrlen) n
               (failure (EINTR P)) last ->
             ends k (connect P p) w (answered w0 (Connect (fd socket) addr addrlen) n)
               (Returned socket)))
  /\ (forall k this w w0 connection n last,
         ends k (local_socket_new P) w w0 (Returned connection) ->
         rc last <> -1 ->
         answers_after k w0 (accept_call P (fd this)) n (failure (EINTR P)) last ->
         (accept_is_atomic P = false ->
          k (clock (answered w0 (accept_call P (fd this)) n)) _
            (Cloexec (assign connection (rc last)) true) = None) ->
         exists w',
           ends k (accept P this) w w' (Returned (assign connection (rc last))))
  /\ (forall k this d msg w n last,
         rights_message P d = Returned msg ->
         rc last <> -1 ->
         answers_after k w (Sendmsg (fd this) msg 0) n (failure (EINTR P)) last ->
         ends k (send_descriptor P this d) w (answered w (Sendmsg (fd this) msg 0) n)
           (Returned tt))
  /\ (forall k this w n last msg',
         rc last <> -1 ->
         answers_after k w (recvmsg_call P this) n
           (failure (EINTR P), message_header P [None]) (last, msg') ->
         ends k (recvmsg_retry P (fd this) (message_header P [None])
                   (or_if_defined 0 (MSG_CMSG_CLOEXEC P)))
           w (answered w (recvmsg_call P this) n) (Returned msg')
         /\ forall w' o,
             ends k (extract_descriptor P empty_descriptor msg')
               (answered w (recvmsg_call P this) n) w' o ->
             ends k (recv_descriptor P this) w w' o)
  (* the functions, interrupted for ever *)
  /\ (forall k p w w0 socket addr addrlen,
         assert_not_empty P p = Returned tt ->
         ends k (local_socket_new P) w w0 (Returned socket) ->
         build_address P p = Returned (addr, addrlen) ->
         (always_answers k w0 (Bind (fd socket) addr addrlen) (failure (EINTR P)) ->
          diverges k (bind P p) w)
         /\ (always_answers k w0 (Connect (fd socket) addr addrlen) (failure (EINTR P)) ->
             diverges k (connect P p) w))
  /\ (forall k this w w0 connection,
         ends k (local_socket_new P) w w0 (Returned connection) ->
         always_answers k w0 (accept_call P (fd this)) (failure (EINTR P)) ->
         diverges k (accept P this) w)
  /\ (forall k this d msg w,
         rights_message P d = Returned msg ->
         always_answers k w (Sendmsg (fd this) msg 0) (failure (EINTR P)) ->
         diverges k (send_descriptor P this d) w)
  /\ (forall k this w,
         always_answers k w (recvmsg_call P this)
           (failure (EINTR P), message_header P [None]) ->
         diverges k (recv_descriptor P this) w).
Proof.
  split; [| split; [| split; [| split; [| split; [| split; [| split; [| split]]]]]]].
  - split; [| split; [| split; [| split]]]; intros.
    + apply bind_retry_transparent.
    + apply connect_retry_transparent.
    + apply accept_retry_transparent.
    + apply sendmsg_retry_transparent.
    + apply recvmsg_retry_transparent.
  - intros k p w w0 socket addr addrlen n last Hassert Hnew Haddr Hrc. split; intros H.
    + now apply bind_resumes with last.
    + now apply connect_resumes with last.
  - intros k this w w0 connection n last Hnew Hrc H Hcloexec. eexists.
    apply (accept_resumes P k this w w0 connection n last Hnew Hrc H Hcloexec).
  - intros k this d msg w n last Hmsg Hrc H. now apply send_descriptor_resumes with last.
  - intros k this w n last msg' Hrc H.
    assert (Hloop : ends k (recvmsg_retry P (fd this) (message_header P [None])
                              (or_if_defined 0 (MSG_CMSG_CLOEXEC P)))
                      w (answered w (recvmsg_call P this) n) (Returned msg'))
      by (apply (recvmsg_received P k this w n last msg' Hrc H)).
    split; [exact Hloop |]. intros w' o Hextract.
    now apply recv_descriptor_ends with (answered w (recvmsg_call P this) n) msg'.
  - intros k p w w0 socket addr addrlen Hassert Hnew Haddr. split; intros H.
    + now apply bind_hangs with w0 socket addr addrlen.
    + now apply connect_hangs with w0 socket addr addrlen.
  - intros k this w w0 connection Hnew H. now apply accept_hangs with w0 connection.
  - intros k this d msg w Hmsg H. now apply send_descriptor_hangs with msg.
  - intros k this w H. now apply recv_descriptor_hangs.
Qed.

(** C4 at work on Linux: [bind(7, "/tmp/s", 8)] is interrupted three times
    and then succeeds; the loop made the same call four times and returned. *)
Lemma interrupted_calls_are_retried_witness :
  ends (script [uniform (failure 4); uniform (failure 4); uniform (failure 4)]
          (uniform (success 0)))
    (bind_retry linux_x86_64 7 {| sun_family := 1; sun_path := "/tmp/s" |} 8)
    boot
    {| clock := 4;
       journal :=
         repeat (call_of (Bind 7 {| sun_family := 1; sun_path := "/tmp/s" |} 8)) 4 |}
    (Returned tt).
Proof.
  refine (proj1
            (proj1 (proj1 (interrupted_calls_are_retried linux_x86_64))
               7 {| sun_family := 1; sun_path := "/tmp/s" |} 8
               (script [uniform (failure 4); uniform (failure 4); uniform (failure 4)]
                  (uniform (success 0)))
               boot)
            3%nat (success 0) _ _).
  - cbn. lia.
  - split; [intros j Hj | reflexivity].
    destruct j as [|[|[|j]]]; try reflexivity; lia.
Defined.

(* ===================================================================== *)
(** * C5, C6, C7: fatal, bad-descriptor and ordinary failures            *)
(* ===================================================================== *)

(** C5.  When the [socket] call of the default constructor fails with
    [EMFILE], [ENFILE], [ENOBUFS] or [ENOMEM], the constructor throws
    [posix::fatal_error] with that code, and with any other code it throws
    [posix::error] with that code.  When the call of [accept] fails (after
    any number of interruptions, which are not failures: the call is issued
    again), [accept] throws [posix::fatal_error] with the code for the same
    four codes, [posix::bad_descriptor] for [EBADF], and [posix::error] with
    the code for every other one. *)
Theorem creation_and_accept_failures_are_classified
  (P : platform) (k : kernel) (code : Z) :
  platform_ok P ->
  (* local_socket::local_socket() *)
  (forall w,
      k (clock w) _ (socket_call P) = failure code ->
      (resource_exhaustion P code ->
       ends k (local_socket_new P) w (tick w (socket_call P))
         (Thrown (posix_fatal_error code)))
      /\ (~ resource_exhaustion P code ->
          ends k (local_socket_new P) w (tick w (socket_call P))
            (Thrown (posix_error code))))
  (* local_socket::accept() *)
  /\ (forall this w w0 connection n,
         ends k (local_socket_new P) w w0 (Returned connection) ->
         answers_after k w0 (accept_call P (fd this)) n (failure (EINTR P))
           (failure code) ->
         (resource_exhaustion P code ->
          ends k (accept P this) w (answered w0 (accept_call P (fd this)) n)
            (Thrown (posix_fatal_error code)))
         /\ (code = EBADF P ->
             ends k (accept P this) w (answered w0 (accept_call P (fd this)) n)
               (Thrown posix_bad_descriptor))
         /\ (~ resource_exhaustion P code -> code <> EBADF P -> code <> EINTR P ->
             ends k (accept P this) w (answered w0 (accept_call P (fd this)) n)
               (Thrown (posix_error code)))).
Proof.
  intros P_ok. destruct P_ok. split.
  - intros w Hk. pose proof (local_socket_new_fails P k w code Hk) as H.
    unfold resource_exhaustion. split; intros Hcode; revert H; switch_errno; auto.
  - intros this w w0 connection n Hnew Hk.
    assert (Hfails : code <> EINTR P ->
                     ends k (accept P this) w (answered w0 (accept_call P (fd this)) n)
                       (carry (A := Z) local_socket
                          (if is_case code [EMFILE P; ENFILE P; ENOBUFS P; ENOMEM P]
                           then Thrown (posix_fatal_error code)
                           else if is_case code [EBADF P] then Thrown posix_bad_descriptor
                                else Thrown (posix_error code)))).
    { intros Hcode. apply accept_stops with w0 connection; [exact Hnew | |].
      - unfold answered. rewrite <- ticks_eq. now apply accept_retry_fails.
      - repeat match goal with |- context [if ?b then _ else _] => destruct b end;
          exact Logic.I. }
    unfold resource_exhaustion. split; [| split].
    + intros Hcode.
      assert (Hne : code <> EINTR P) by (intuition congruence).
      specialize (Hfails Hne). revert Hfails. switch_errno. auto.
    + intros Hcode.
      assert (Hne : code <> EINTR P) by congruence.
      specialize (Hfails Hne). revert Hfails. switch_errno. auto.
    + intros Hnot Hbad Hne.
      specialize (Hfails Hne). revert Hfails. switch_errno. auto.
Qed.

(** C5 at work on Linux: [socket] fails with [EMFILE]; and, on the socket 3,
    [accept4] is interrupted once and then fails with [ENFILE]. *)
Lemma creation_and_accept_failures_are_classified_witness :
  ends (script [] (uniform (failure 24))) (local_socket_new linux_x86_64) boot
    (tick boot (socket_call linux_x86_64)) (Thrown (posix_fatal_error 24))
  /\ ends (script [uniform (success 7); uniform (failure 4)] (uniform (failure 23)))
       (accept linux_x86_64 (assign empty_descriptor 3)) boot
       (answered (tick boot (socket_call linux_x86_64))
          (accept_call linux_x86_64 3) 1)
       (Thrown (posix_fatal_error 23)).
Proof.
  split.
  - refine (proj1 (proj1 (creation_and_accept_failures_are_classified linux_x86_64
                            (script [] (uniform (failure 24))) 24 linux_x86_64_ok)
                     boot _) _).
    + reflexivity.
    + left. reflexivity.
  - refine (proj1 (proj2 (creation_and_accept_failures_are_classified linux_x86_64
                            (script [uniform (success 7); uniform (failure 4)]
                               (uniform (failure 23)))
                            23 linux_x86_64_ok)
                     (assign empty_descriptor 3) boot
                     (tick boot (socket_call linux_x86_64))
                     (assign empty_descriptor 7) 1%nat _ _) _).
    + apply (run_ends _ 5). vm_compute. reflexivity.
    + split; [intros j Hj; assert (j = O) by lia; subst j |]; reflexivity.
    + right. left. reflexivity.
Defined.

(** C6, as amended.  When the [socketpair] call of [pair] fails, [pair]
    throws [posix::fatal_error] with the code exactly for [EMFILE], [ENFILE]
    and [ENOMEM], and [posix::error] with the code for every other one.  The
    code of the default constructor's fatal set that is missing here is
    [ENOBUFS], no buffer space: it is an ordinary error for [pair], while
    [ENOMEM], no memory, is fatal for both. *)
Theorem pair_failures_are_classified
  (P : platform) (k : kernel) (w : world) (code : Z) (fds : Z * Z) :
  platform_ok P ->
  k (clock w) _ (socketpair_call P) = (failure code, fds) ->
  (code = EMFILE P \/ code = ENFILE P \/ code = ENOMEM P ->
   ends k (pair P) w (tick w (socketpair_call P)) (Thrown (posix_fatal_error code)))
  /\ (~ (code = EMFILE P \/ code = ENFILE P \/ code = ENOMEM P) ->
      ends k (pair P) w (tick w (socketpair_call P)) (Thrown (posix_error code)))
  /\ (code = ENOBUFS P ->
      resource_exhaustion P code
      /\ ends k (pair P) w (tick w (socketpair_call P)) (Thrown (posix_error code))).
Proof.
  intros P_ok Hk. destruct P_ok.
  pose proof (pair_fails P k w code fds Hk) as H.
  split; [| split]; intros Hcode; [| | split]; revert H; unfold resource_exhaustion;
    switch_errno; auto.
Qed.

(** C6 at work on Linux: [socketpair] fails with [ENOBUFS]. *)
Lemma pair_failures_are_classified_witness :
  ends (script [] (uniform (failure 105))) (pair linux_x86_64) boot
    (tick boot (socketpair_call linux_x86_64)) (Thrown (posix_error 105)).
Proof.
  refine (proj2 (proj2 (proj2 (pair_failures_are_classified linux_x86_64
                                 (script [] (uniform (failure 105))) boot 105 (0, 0)
                                 linux_x86_64_ok _)) _)).
  - reflexivity.
  - reflexivity.
Defined.

(** C6 as stated fails: on Linux, [pair] classifies [ENOMEM] (12), the
    memory code, as fatal and not as an ordinary error, and it classifies
    [ENOBUFS] (105), which the default constructor treats as fatal, as an
    ordinary error. *)
Lemma pair_ENOMEM_is_fatal_and_ENOBUFS_is_not :
  (ends (script [] (uniform (failure 12))) (pair linux_x86_64) boot
     (tick boot (socketpair_call linux_x86_64)) (Thrown (posix_fatal_error 12))
   /\ ~ ends (script [] (uniform (failure 12))) (pair linux_x86_64) boot
          (tick boot (socketpair_call linux_x86_64)) (Thrown (posix_error 12)))
  /\ (ends (script [] (uniform (failure 105))) (pair linux_x86_64) boot
        (tick boot (socketpair_call linux_x86_64)) (Thrown (posix_error 105))
      /\ ~ ends (script [] (uniform (failure 105))) (pair linux_x86_64) boot
             (tick boot (socketpair_call linux_x86_64)) (Thrown (posix_fatal_error 105))).
Proof.
  assert (H12 : ends (script [] (uniform (failure 12))) (pair linux_x86_64) boot
                  (tick boot (socketpair_call linux_x86_64))
                  (Thrown (posix_fatal_error 12)))
    by (apply (run_ends _ 5); vm_compute; reflexivity).
  assert (H105 : ends (script [] (uniform (failure 105))) (pair linux_x86_64) boot
                   (tick boot (socketpair_call linux_x86_64))
                   (Thrown (posix_error 105)))
    by (apply (run_ends _ 5); vm_compute; reflexivity).
  split; (split; [assumption |]); intros Habs.
  - destruct (ends_det _ _ _ _ _ _ _ H12 Habs) as [_ Heq]. discriminate.
  - destruct (ends_det _ _ _ _ _ _ _ H105 Habs) as [_ Heq]. discriminate.
Qed.

(** C7.  Once [bind] and [connect] created their socket and built the
    address, and their call fails (after any number of interruptions):
    [EBADF] makes both throw [posix::bad_descriptor], which is not a
    [posix::error]; [ENOMEM] makes [bind] throw [posix::fatal_error] with the
    code; every other code makes [bind] throw [posix::error] with the code.
    For [connect] every code but [EBADF] gives [posix::error] with the code,
    and whatever the kernel answers the [connect] loop never ends with a
    [posix::fatal_error]. *)
Theorem bind_and_connect_failures_are_classified
  (P : platform) (k : kernel) (p : pathname) (w w0 : world) (socket : local_socket)
  (addr : sockaddr_un) (addrlen : Z) (n : nat) (code : Z) :
  platform_ok P ->
  assert_not_empty P p = Returned tt ->
  ends k (local_socket_new P) w w0 (Returned socket) ->
  build_address P p = Returned (addr, addrlen) ->
  (* bind *)
  (answers_after k w0 (Bind (fd socket) addr addrlen) n (failure (EINTR P))
     (failure code) ->
   (code = EBADF P ->
    ends k (bind P p) w (answered w0 (Bind (fd socket) addr addrlen) n)
      (Thrown posix_bad_descriptor))
   /\ (code = ENOMEM P ->
       ends k (bind P p) w (answered w0 (Bind (fd socket) addr addrlen) n)
         (Thrown (posix_fatal_error code)))
   /\ (code <> EBADF P -> code <> ENOMEM P -> code <> EINTR P ->
       ends k (bind P p) w (answered w0 (Bind (fd socket) addr addrlen) n)
         (Thrown (posix_error code))))
  (* connect *)
  /\ (answers_after k w0 (Connect (fd socket) addr addrlen) n (failure (EINTR P))
        (failure code) ->
      (code = EBADF P ->
       ends k (connect P p) w (answered w0 (Connect (fd socket) addr addrlen) n)
         (Thrown posix_bad_descriptor))
      /\ (code <> EBADF P -> code <> EINTR P ->
          ends k (connect P p) w (answered w0 (Connect (fd socket) addr addrlen) n)
            (Thrown (posix_error code))))
  /\ (forall c, posix_bad_descriptor <> posix_error c)
  /\ (forall w1 w2 o,
         ends k (connect_retry P (fd socket) addr addrlen) w1 w2 o -> ~ is_fatal o).
Proof.
  intros P_ok Hassert Hnew Haddr. destruct P_ok.
  split; [| split; [| split]].
  - intros Hk.
    assert (Hfails : code <> EINTR P ->
                     ends k (bind P p) w (answered w0 (Bind (fd socket) addr addrlen) n)
                       (returning (A := unit)
                          (if is_case code [ENOMEM P] then Thrown (posix_fatal_error code)
                           else if is_case code [EBADF P] then Thrown posix_bad_descriptor
                                else Thrown (posix_error code)) socket)).
    { intros Hcode. apply bind_ends with w0 addr addrlen; auto.
      unfold answered. rewrite <- ticks_eq. now apply bind_retry_fails. }
    split; [| split].
    + intros Hcode. assert (Hne : code <> EINTR P) by congruence.
      specialize (Hfails Hne). revert Hfails. switch_errno. auto.
    + intros Hcode. assert (Hne : code <> EINTR P) by congruence.
      specialize (Hfails Hne). revert Hfails. switch_errno. auto.
    + intros Hbad Hmem Hne.
      specialize (Hfails Hne). revert Hfails. switch_errno. auto.
  - intros Hk.
    assert (Hfails : code <> EINTR P ->
                     ends k (connect P p) w
                       (answered w0 (Connect (fd socket) addr addrlen) n)
                       (returning (A := unit)
                          (if is_case code [EBADF P] then Thrown posix_bad_descriptor
                           else Thrown (posix_error code)) socket)).
    { intros Hcode. apply connect_ends with w0 addr addrlen; auto.
      unfold answered. rewrite <- ticks_eq. now apply connect_retry_fails. }
    split.
    + intros Hcode. assert (Hne : code <> EINTR P) by congruence.
      specialize (Hfails Hne). revert Hfails. switch_errno. auto.
    + intros Hbad Hne.
      specialize (Hfails Hne). revert Hfails. switch_errno. auto.
  - discriminate.
  - intros w1 w2 o H. now apply connect_retry_not_interruption in H.
Qed.

(** C7 at work on Linux: [bind] to "/tmp/sock" is interrupted once and then
    fails with [ENOMEM]. *)
Lemma bind_and_connect_failures_are_classified_witness :
  ends (script [uniform (success 7); uniform (failure 4)] (uniform (failure 12)))
    (bind linux_x86_64 {| path_string := "/tmp/sock" |}) boot
    (answered (tick boot (socket_call linux_x86_64))
       (Bind 7 {| sun_family := 1; sun_path := "/tmp/sock" ++ String NUL "" |} 11) 1)
    (Thrown (posix_fatal_error 12)).
Proof.
  refine (proj1 (proj2 (proj1
    (bind_and_connect_failures_are_classified linux_x86_64
       (script [uniform (success 7); uniform (failure 4)] (uniform (failure 12)))
       {| path_string := "/tmp/sock" |} boot (tick boot (socket_call linux_x86_64))
       (assign empty_descriptor 7)
       {| sun_family := 1; sun_path := "/tmp/sock" ++ String NUL "" |} 11 1%nat 12
       linux_x86_64_ok _ _ _) _)) _).
  - reflexivity.
  - apply (run_ends _ 5). vm_compute. reflexivity.
  - reflexivity.
  - split; [intros j Hj; assert (j = O) by lia; subst j |]; reflexivity.
  - reflexivity.
Defined.

(* ===================================================================== *)
(** * C strings                                                          *)
(* ===================================================================== *)

Lemma length_append (s t : string) :
  String.length (s ++ t) = (String.length s + String.length t)%nat.
Proof. induction s as [|c s IH]; cbn; [reflexivity | now rewrite IH]. Qed.

(** The terminator [c_str()] adds ends the C string, if nothing did before. *)
Lemma c_string_terminated (s : string) :
  c_string (s ++ String NUL "") = c_string s.
Proof.
  induction s as [|c s IH]; cbn; [reflexivity |].
  destruct (Ascii.eqb c NUL); [reflexivity | now rewrite IH].
Qed.

Lemma c_string_NUL_free (s : string) :
  contains_NUL s = false -> c_string s = s.
Proof.
  induction s as [|c s IH]; cbn; [reflexivity |].
  destruct (Ascii.eqb c NUL); cbn; [discriminate |].
  intros H. now rewrite IH.
Qed.

Lemma c_string_idempotent (s : string) : c_string (c_string s) = c_string s.
Proof.
  induction s as [|c s IH]; cbn; [reflexivity |].
  destruct (Ascii.eqb c NUL) eqn:Hc; cbn; [reflexivity |].
  now rewrite Hc, IH.
Qed.

(** What [strlen] finds in [c_str()], and in [sun_path] after [strcpy]. *)
Lemma strlen_c_str (p : pathname) :
  strlen (c_str p) = Z.of_nat (String.length (c_string (path_string p))).
Proof. unfold strlen, c_str. now rewrite c_string_terminated. Qed.

Lemma strlen_stored (s : string) :
  strlen (c_string s ++ String NUL "") = Z.of_nat (String.length (c_string s)).
Proof. unfold strlen. now rewrite c_string_terminated, c_string_idempotent. Qed.

Lemma strlen_NUL_free (p : pathname) :
  contains_NUL (path_string p) = false ->
  strlen (c_str p) = Z.of_nat (String.length (path_string p)).
Proof. intros H. now rewrite strlen_c_str, c_string_NUL_free. Qed.

(** [strcpy] stores the whole C string and its terminator, or overruns. *)
Lemma strcpy_c_str (capacity : Z) (p : pathname) :
  strcpy capacity (c_str p) =
  if strlen (c_str p) + 1 <=? capacity
  then inl (c_string (path_string p) ++ String NUL "")
  else inr (strcpy_overrun (strlen (c_str p) + 1) capacity).
Proof.
  unfold strcpy. cbv zeta. rewrite strlen_c_str.
  unfold c_str. rewrite c_string_terminated, length_append. cbn [String.length].
  replace (Z.of_nat (String.length (c_string (path_string p)) + 1))
    with (Z.of_nat (String.length (c_string (path_string p))) + 1) by lia.
  reflexivity.
Qed.

Section Addresses.

Variable P : platform.
Hypothesis P_ok : platform_ok P.

(** The address of a pathname whose C string fits [sun_path]. *)
Lemma build_address_fits (p : pathname) :
  strlen (c_str p) + 1 <= sizeof_sun_path P ->
  build_address P p =
  Returned ({| sun_family := AF_LOCAL P;
               sun_path := c_string (path_string p) ++ String NUL "" |},
            sizeof_sun_family P + strlen (c_str p)).
Proof.
  intros Hfits. unfold build_address. rewrite strcpy_c_str.
  apply Z.leb_le in Hfits. rewrite Hfits. cbn [sun_path].
  rewrite strlen_stored, <- strlen_c_str. unfold to_socklen_t.
  apply Z.leb_le in Hfits.
  pose proof (ok_socklen P P_ok). pose proof (ok_sun_family P P_ok).
  assert (0 <= strlen (c_str p)) by (unfold strlen; lia).
  rewrite Z.mod_small by lia. reflexivity.
Qed.

(** The address of a pathname whose C string does not fit. *)
Lemma build_address_overruns (p : pathname) :
  sizeof_sun_path P < strlen (c_str p) + 1 ->
  build_address P p
  = Undefined (strcpy_overrun (strlen (c_str p) + 1) (sizeof_sun_path P)).
Proof.
  intros Hlong. unfold build_address. rewrite strcpy_c_str.
  apply Z.leb_gt in Hlong. now rewrite Hlong.
Qed.

End Addresses.

(* ===================================================================== *)
(** * C8, C9: the address [bind] and [connect] build                     *)
(* ===================================================================== *)

Section Unchecked.

Variable P : platform.
Variable k : kernel.

Lemma bind_aborts (p : pathname) (w : world) :
  assert_not_empty P p = Aborted -> ends k (bind P p) w w Aborted.
Proof.
  intros H. unfold bind. rewrite H.
  apply (ends_and_then_stop k (Ret Aborted) _ w w Aborted (ends_ret k _ w) Logic.I).
Qed.

Lemma connect_aborts (p : pathname) (w : world) :
  assert_not_empty P p = Aborted -> ends k (connect P p) w w Aborted.
Proof.
  intros H. unfold connect. rewrite H.
  apply (ends_and_then_stop k (Ret Aborted) _ w w Aborted (ends_ret k _ w) Logic.I).
Qed.

Lemma bind_overruns (p : pathname) (w w0 : world) (socket : local_socket) (u : undefined) :
  assert_not_empty P p = Returned tt ->
  ends k (local_socket_new P) w w0 (Returned socket) ->
  build_address P p = Undefined u ->
  ends k (bind P p) w w0 (Undefined u).
Proof.
  intros Hassert Hnew Haddr. unfold bind.
  eapply ends_and_then_pure; [exact Hassert |].
  eapply ends_and_then; [exact Hnew |]. rewrite Haddr.
  apply (ends_and_then_stop k (Ret (Undefined u)) _ w0 w0 (Undefined u)
           (ends_ret k _ w0) Logic.I).
Qed.

Lemma connect_overruns (p : pathname) (w w0 : world) (socket : local_socket)
      (u : undefined) :
  assert_not_empty P p = Returned tt ->
  ends k (local_socket_new P) w w0 (Returned socket) ->
  build_address P p = Undefined u ->
  ends k (connect P p) w w0 (Undefined u).
Proof.
  intros Hassert Hnew Haddr. unfold connect.
  eapply ends_and_then_pure; [exact Hassert |].
  eapply ends_and_then; [exact Hnew |]. rewrite Haddr.
  apply (ends_and_then_stop k (Ret (Undefined u)) _ w0 w0 (Undefined u)
           (ends_ret k _ w0) Logic.I).
Qed.

Lemma assert_not_empty_passes (p : pathname) :
  pathname_empty p = false -> assert_not_empty P p = Returned tt.
Proof. intros H. unfold assert_not_empty. rewrite H. now destruct (NDEBUG P). Qed.

End Unchecked.

(** C8, as amended.  For every non-empty pathname that holds no [NUL] byte
    and that fits, with its terminator, in [sun_path], the address [bind] and
    [connect] build is the family tag [AF_LOCAL] followed by the bytes of the
    pathname and a terminating [NUL] (no length prefix), the address length
    is [sizeof(sun_family)] plus the number of bytes of the pathname, and
    these are the address and the length of every [bind] and [connect] call
    the two functions make. *)
Theorem address_is_family_tag_and_pathname
  (P : platform) (p : pathname) :
  platform_ok P ->
  pathname_empty p = false ->
  contains_NUL (path_string p) = false ->
  Z.of_nat (String.length (path_string p)) + 1 <= sizeof_sun_path P ->
  build_address P p
  = Returned ({| sun_family := AF_LOCAL P;
                 sun_path := path_string p ++ String NUL "" |},
              sizeof_sun_family P + Z.of_nat (String.length (path_string p)))
  /\ forall k w w0 socket n last,
      ends k (local_socket_new P) w w0 (Returned socket) ->
      rc last <> -1 ->
      (answers_after k w0
         (Bind (fd socket)
            {| sun_family := AF_LOCAL P; sun_path := path_string p ++ String NUL "" |}
            (sizeof_sun_family P + Z.of_nat (String.length (path_string p))))
         n (failure (EINTR P)) last ->
       ends k (bind P p) w
         (answered w0
            (Bind (fd socket)
               {| sun_family := AF_LOCAL P; sun_path := path_string p ++ String NUL "" |}
               (sizeof_sun_family P + Z.of_nat (String.length (path_string p))))
            n)
         (Returned socket))
      /\ (answers_after k w0
            (Connect (fd socket)
               {| sun_family := AF_LOCAL P; sun_path := path_string p ++ String NUL "" |}
               (sizeof_sun_family P + Z.of_nat (String.length (path_string p))))
            n (failure (EINTR P)) last ->
          ends k (connect P p) w
            (answered w0
               (Connect (fd socket)
                  {| sun_family := AF_LOCAL P;
                     sun_path := path_string p ++ String NUL "" |}
                  (sizeof_sun_family P + Z.of_nat (String.length (path_string p))))
               n)
            (Returned socket)).
Proof.
  intros P_ok Hnonempty Hfree Hfits.
  assert (Haddr : build_address P p
                  = Returned ({| sun_family := AF_LOCAL P;
                                 sun_path := path_string p ++ String NUL "" |},
                              sizeof_sun_family P
                              + Z.of_nat (String.length (path_string p)))).
  { rewrite (build_address_fits P P_ok p) by (rewrite strlen_NUL_free; assumption).
    now rewrite strlen_NUL_free, c_string_NUL_free. }
  split; [exact Haddr |].
  intros k w w0 socket n last Hnew Hrc.
  pose proof (assert_not_empty_passes P p Hnonempty) as Hassert.
  split; intros H.
  - now apply bind_resumes with last.
  - now apply connect_resumes with last.
Qed.

(** C8 at work on Linux: the address of "/tmp/sock". *)
Lemma address_is_family_tag_and_pathname_witness :
  build_address linux_x86_64 {| path_string := "/tmp/sock" |}
  = Returned ({| sun_family := 1; sun_path := "/tmp/sock" ++ String NUL "" |}, 11).
Proof.
  refine (proj1 (address_is_family_tag_and_pathname linux_x86_64
                   {| path_string := "/tmp/sock" |} linux_x86_64_ok _ _ _)).
  - reflexivity.
  - reflexivity.
  - cbn. lia.
Defined.

(** C8 as stated fails on Linux.  The non-empty pathname of the three bytes
    ['a'], [NUL], ['b'] gives an address that holds ['a'] and a terminator,
    not the bytes of the pathname, and the length 3, not 2 + 3; [bind] passes
    these to the kernel.  For the non-empty pathname of 108 bytes ['a'],
    [strcpy] stores 109 bytes in the 108 of [sun_path]: no address is built. *)
Lemma address_of_split_and_long_pathnames :
  (pathname_empty split_pathname = false
   /\ build_address linux_x86_64 split_pathname
      = Returned ({| sun_family := 1; sun_path := String "a" (String NUL "") |}, 3)
   /\ String "a" (String NUL "") <> path_string split_pathname ++ String NUL ""
   /\ 3 <> sizeof_sun_family linux_x86_64
           + Z.of_nat (String.length (path_string split_pathname))
   /\ run 5 (script [uniform (success 7)] (uniform (success 0)))
        (bind linux_x86_64 split_pathname) boot
      = Some ({| clock := 2;
                 journal :=
                   [call_of (Socket 1 524289 0);
                    call_of (Bind 7 {| sun_family := 1;
                                       sun_path := String "a" (String NUL "") |} 3)] |},
              Returned (assign empty_descriptor 7)))
  /\ (pathname_empty long_pathname = false
      /\ build_address linux_x86_64 long_pathname
         = Undefined (strcpy_overrun 109 108)
      /\ run 5 (script [uniform (success 7)] (uniform (success 0)))
           (bind linux_x86_64 long_pathname) boot
         = Some ({| clock := 1; journal := [call_of (Socket 1 524289 0)] |},
                 Undefined (strcpy_overrun 109 108))).
Proof.
  split; [split; [| split; [| split; [| split]]] | split; [| split]];
    try (vm_compute; reflexivity); discriminate.
Qed.

(** C9.  [bind] and [connect] validate the pathname by one assertion only:
    built with assertions, they abort on an empty pathname before any call.
    A non-empty pathname whose C string and terminator exceed [sun_path] is
    copied whole all the same: [strcpy] is asked to store all the
    [strlen + 1] bytes, which overruns the array; the function has by then
    created its socket, throws no exception and makes no [bind] or [connect]
    call with a shortened address.  A non-empty pathname that fits goes to
    the kernel call whatever bytes it holds: the function then ends as its
    loop does. *)
Theorem pathname_is_copied_without_bound_check
  (P : platform) (k : kernel) (p : pathname) (w : world) :
  (NDEBUG P = false -> pathname_empty p = true ->
   ends k (bind P p) w w Aborted /\ ends k (connect P p) w w Aborted)
  /\ (forall w0 socket,
         pathname_empty p = false ->
         ends k (local_socket_new P) w w0 (Returned socket) ->
         sizeof_sun_path P < strlen (c_str p) + 1 ->
         strcpy (sizeof_sun_path P) (c_str p)
         = inr (strcpy_overrun (strlen (c_str p) + 1) (sizeof_sun_path P))
         /\ strlen (c_str p) = Z.of_nat (String.length (c_string (path_string p)))
         /\ ends k (bind P p) w w0
              (Undefined (strcpy_overrun (strlen (c_str p) + 1) (sizeof_sun_path P)))
         /\ ends k (connect P p) w w0
              (Undefined (strcpy_overrun (strlen (c_str p) + 1) (sizeof_sun_path P)))
         /\ (forall w' e, ~ ends k (bind P p) w w' (Thrown e))
         /\ (forall w' e, ~ ends k (connect P p) w w' (Thrown e)))
  /\ (forall w0 socket,
         pathname_empty p = false ->
         ends k (local_socket_new P) w w0 (Returned socket) ->
         strlen (c_str p) + 1 <= sizeof_sun_path P ->
         exists addr addrlen,
           build_address P p = Returned (addr, addrlen)
           /\ (forall w1 o,
                  ends k (bind_retry P (fd socket) addr addrlen) w0 w1 o ->
                  ends k (bind P p) w w1 (returning o socket))
           /\ (forall w1 o,
                  ends k (connect_retry P (fd socket) addr addrlen) w0 w1 o ->
                  ends k (connect P p) w w1 (returning o socket))).
Proof.
  split; [| split].
  - intros Hdebug Hempty.
    assert (Hassert : assert_not_empty P p = Aborted)
      by (unfold assert_not_empty; now rewrite Hdebug, Hempty).
    split; [now apply bind_aborts | now apply connect_aborts].
  - intros w0 socket Hnonempty Hnew Hlong.
    pose proof (assert_not_empty_passes P p Hnonempty) as Hassert.
    pose proof (build_address_overruns P p Hlong) as Haddr.
    pose proof (bind_overruns P k p w w0 socket _ Hassert Hnew Haddr) as Hbind.
    pose proof (connect_overruns P k p w w0 socket _ Hassert Hnew Haddr) as Hconnect.
    split; [| split; [| split; [| split; [| split]]]]; auto.
    + rewrite strcpy_c_str. apply Z.leb_gt in Hlong. now rewrite Hlong.
    + apply strlen_c_str.
    + intros w' e Habs.
      destruct (ends_det k _ _ _ _ _ _ Hbind Habs) as [_ Heq]. discriminate.
    + intros w' e Habs.
      destruct (ends_det k _ _ _ _ _ _ Hconnect Habs) as [_ Heq]. discriminate.
  - intros w0 socket Hnonempty Hnew Hfits.
    pose proof (assert_not_empty_passes P p Hnonempty) as Hassert.
    assert (Haddr : build_address P p
                    = Returned ({| sun_family := AF_LOCAL P;
                                   sun_path := c_string (path_string p) ++ String NUL "" |},
                                to_socklen_t
                                  (sizeof_sun_family P
                                   + strlen (c_string (path_string p) ++ String NUL "")))).
    { unfold build_address. rewrite strcpy_c_str.
      apply Z.leb_le in Hfits. now rewrite Hfits. }
    eexists. eexists. split; [exact Haddr |]. split; intros w1 o Hloop.
    + eapply bind_ends; eassumption.
    + eapply connect_ends; eassumption.
Qed.

(** C9 at work on Linux: [bind] to the pathname of 108 bytes. *)
Lemma pathname_is_copied_without_bound_check_witness :
  ends (script [uniform (success 7)] (uniform (success 0)))
    (bind linux_x86_64 long_pathname) boot (tick boot (socket_call linux_x86_64))
    (Undefined (strcpy_overrun 109 108)).
Proof.
  refine (proj1 (proj2 (proj2
    (proj1 (proj2 (pathname_is_copied_without_bound_check linux_x86_64
                     (script [uniform (success 7)] (uniform (success 0)))
                     long_pathname boot))
       (tick boot (socket_call linux_x86_64)) (assign empty_descriptor 7) _ _ _)))).
  - reflexivity.
  - apply (run_ends _ 5). vm_compute. reflexivity.
  - vm_compute. reflexivity.
Defined.

(* ===================================================================== *)
(** * Beyond C1 to C10: the rest of the translation unit                 *)
(* ===================================================================== *)

(** ** What the loops can end with and what they call *)

Section Verdicts.

Variable P : platform.
Variable k : kernel.

Ltac verdict H :=
  cbv beta zeta in H;
  repeat match type of H with
         | Leaf _ (let (_, _) := ?p in _) => destruct p
         | Leaf _ (if ?b then _ else _) => destruct b eqn:?
         end;
  apply Leaf_Ret_inv in H; inversion H; subst; cbn [thrown_by_switch];
  repeat match goal with
         | Hc : is_case _ _ = true |- _ => apply is_case_true in Hc; cbn [In] in Hc
         | Hc : is_case _ _ = false |- _ => apply is_case_false in Hc; cbn [In] in Hc
         end;
  cbn [In]; intuition.

Lemma bind_retry_verdict (sockfd : Z) (addr : sockaddr_un) (addrlen : Z)
      (w w' : world) (o : outcome unit) :
  ends k (bind_retry P sockfd addr addrlen) w w' o -> thrown_by_switch P [ENOMEM P] o.
Proof.
  apply (retry_loop_ends_within k (fun _ : unit => Bind sockfd addr addrlen) _
           (thrown_by_switch P [ENOMEM P])).
  intros a r H. verdict H.
Qed.

Lemma connect_retry_verdict (sockfd : Z) (addr : sockaddr_un) (addrlen : Z)
      (w w' : world) (o : outcome unit) :
  ends k (connect_retry P sockfd addr addrlen) w w' o -> thrown_by_switch P [] o.
Proof.
  apply (retry_loop_ends_within k (fun _ : unit => Connect sockfd addr addrlen) _
           (thrown_by_switch P [])).
  intros a r H. verdict H.
Qed.

Lemma accept_retry_verdict (sockfd : Z) (w w' : world) (o : outcome Z) :
  ends k (accept_retry P sockfd) w w' o ->
  thrown_by_switch P [EMFILE P; ENFILE P; ENOBUFS P; ENOMEM P] o.
Proof.
  apply (retry_loop_ends_within k (fun _ : unit => accept_call P sockfd) _
           (thrown_by_switch P [EMFILE P; ENFILE P; ENOBUFS P; ENOMEM P])).
  intros a r H. verdict H.
Qed.

Lemma sendmsg_retry_verdict (sockfd : Z) (msg : msghdr) (flags : Z)
      (w w' : world) (o : outcome unit) :
  ends k (sendmsg_retry P sockfd msg flags) w w' o -> thrown_by_switch P [ENOMEM P] o.
Proof.
  apply (retry_loop_ends_within k (fun _ : unit => Sendmsg sockfd msg flags) _
           (thrown_by_switch P [ENOMEM P])).
  intros a r H. verdict H.
Qed.

Lemma recvmsg_retry_verdict (sockfd : Z) (msg : msghdr) (flags : Z)
      (w w' : world) (o : outcome msghdr) :
  ends k (recvmsg_retry P sockfd msg flags) w w' o -> thrown_by_switch P [ENOMEM P] o.
Proof.
  apply (retry_loop_ends_within k (fun msg => Recvmsg sockfd msg flags) _
           (thrown_by_switch P [ENOMEM P])).
  intros a r H. verdict H.
Qed.

(** A loop that decides on each answer without another call issues nothing
    but its own calls, whatever the kernel answers. *)
Lemma retry_loop_calls_within {I T R} (ev : I -> sysE T)
      (decide : T -> itree sysE (I + R)) (Q : call -> Prop) :
  (forall i, Q (call_of (ev i))) ->
  (forall a, exists x, decide a = Ret x) ->
  forall i w w' r,
    ends k (retry_loop ev decide i) w w' r ->
    exists calls,
      journal w' = (journal w ++ calls)%list /\ Forall Q calls
      /\ clock w' = (clock w + List.length calls)%nat.
Proof.
  intros HQ Hpure i w w' r H. unfold ends, exec, retry_loop in H.
  assert (HL : Leaf (w', r)
                 (interp_state (answer k)
                    (ITree.iter (fun i => ITree.bind (ITree.trigger (ev i)) decide) i) w))
    by (rewrite H; apply Leaf_Ret).
  pose (RS := fun s : world =>
                exists calls,
                  journal s = (journal w ++ calls)%list /\ Forall Q calls
                  /\ clock s = (clock w + List.length calls)%nat).
  apply (Leaf_interp_state_iter_inv (answer k) _ RS (fun _ => True) (fun _ => True))
    in HL; [exact (proj1 HL) | | | exact Logic.I].
  - intros s i0 [calls [Hj [Hall Hc]]] _ sx' Hsx'.
    destruct (Hpure (k (clock s) T (ev i0))) as [x Hx].
    assert (Hrun : ends k (ITree.bind (ITree.trigger (ev i0)) decide) s (tick s (ev i0)) x)
      by (apply ends_call; rewrite Hx; apply ends_ret).
    unfold ends, exec in Hrun. rewrite Hrun in Hsx'. apply Leaf_Ret_inv in Hsx'.
    subst sx'. split; cbn.
    + exists (calls ++ [call_of (ev i0)])%list. split; [| split].
      * unfold tick; cbn [journal]. now rewrite Hj, <- app_assoc.
      * apply Forall_app. split; [exact Hall | constructor; [apply HQ | constructor]].
      * unfold tick; cbn [clock]. rewrite Hc, length_app. cbn. lia.
    + now destruct x.
  - exists []. cbn. rewrite app_nil_r. split; [reflexivity | split; [constructor | lia]].
Qed.

Ltac pure_decision :=
  intros a; cbv beta zeta;
  repeat match goal with
         | |- context [let (_, _) := ?p in _] => destruct p
         | |- context [if ?b then _ else _] => destruct b
         end;
  eexists; reflexivity.

Lemma same_calls (c : call) (calls : list call) :
  Forall (eq c) calls -> calls = repeat c (List.length calls).
Proof.
  induction 1 as [|x l Hx Hl IH]; cbn; [reflexivity |]. subst x. now rewrite <- IH.
Qed.

Lemma bind_retry_calls (sockfd : Z) (addr : sockaddr_un) (addrlen : Z)
      (w w' : world) (o : outcome unit) :
  ends k (bind_retry P sockfd addr addrlen) w w' o ->
  exists m, journal w'
            = (journal w ++ repeat (call_of (Bind sockfd addr addrlen)) m)%list.
Proof.
  intros H.
  apply (retry_loop_calls_within (fun _ : unit => Bind sockfd addr addrlen) _
           (eq (call_of (Bind sockfd addr addrlen)))) in H;
    [| reflexivity | pure_decision].
  destruct H as [calls [Hj [Hall _]]]. exists (List.length calls).
  now rewrite <- (same_calls _ _ Hall).
Qed.

Lemma connect_retry_calls (sockfd : Z) (addr : sockaddr_un) (addrlen : Z)
      (w w' : world) (o : outcome unit) :
  ends k (connect_retry P sockfd addr addrlen) w w' o ->
  exists m, journal w'
            = (journal w ++ repeat (call_of (Connect sockfd addr addrlen)) m)%list.
Proof.
  intros H.
  apply (retry_loop_calls_within (fun _ : unit => Connect sockfd addr addrlen) _
           (eq (call_of (Connect sockfd addr addrlen)))) in H;
    [| reflexivity | pure_decision].
  destruct H as [calls [Hj [Hall _]]]. exists (List.length calls).
  now rewrite <- (same_calls _ _ Hall).
Qed.

Lemma accept_retry_calls (sockfd : Z) (w w' : world) (o : outcome Z) :
  ends k (accept_retry P sockfd) w w' o ->
  exists m, journal w' = (journal w ++ repeat (call_of (accept_call P sockfd)) m)%list.
Proof.
  intros H.
  apply (retry_loop_calls_within (fun _ : unit => accept_call P sockfd) _
           (eq (call_of (accept_call P sockfd)))) in H;
    [| reflexivity | pure_decision].
  destruct H as [calls [Hj [Hall _]]]. exists (List.length calls).
  now rewrite <- (same_calls _ _ Hall).
Qed.

Lemma recvmsg_retry_calls (sockfd : Z) (msg : msghdr) (flags : Z)
      (w w' : world) (o : outcome msghdr) :
  ends k (recvmsg_retry P sockfd msg flags) w w' o ->
  exists calls, journal w' = (journal w ++ calls)%list
                /\ Forall (is_recvmsg_on sockfd flags) calls.
Proof.
  intros H.
  apply (retry_loop_calls_within (fun msg => Recvmsg sockfd msg flags) _
           (is_recvmsg_on sockfd flags)) in H;
    [| intros m; now exists m | pure_decision].
  destruct H as [calls [Hj [Hall _]]]. now exists calls.
Qed.

End Verdicts.

(** X1.  Whatever the kernel answers, a run of one of the five [retry:] loops
    that ends either returns or throws what its [switch] says: a
    [posix::fatal_error] carries [ENOMEM] (for [accept], one of [EMFILE],
    [ENFILE], [ENOBUFS], [ENOMEM]; [connect] throws none), a [posix::error]
    carries a code that is neither fatal for that loop nor [EBADF] nor
    [EINTR], and no loop ends with a [std::logic_error], an abort or
    undefined behaviour.  On sound headers the same holds of the whole of
    [send_descriptor]. *)
Theorem exceptions_of_the_loops_tell_the_code (P : platform) (k : kernel) :
  (forall sockfd addr addrlen w w' o,
      ends k (bind_retry P sockfd addr addrlen) w w' o ->
      thrown_by_switch P [ENOMEM P] o)
  /\ (forall sockfd addr addrlen w w' o,
         ends k (connect_retry P sockfd addr addrlen) w w' o ->
         thrown_by_switch P [] o)
  /\ (forall sockfd w w' o,
         ends k (accept_retry P sockfd) w w' o ->
         thrown_by_switch P [EMFILE P; ENFILE P; ENOBUFS P; ENOMEM P] o)
  /\ (forall sockfd msg flags w w' o,
         ends k (sendmsg_retry P sockfd msg flags) w w' o ->
         thrown_by_switch P [ENOMEM P] o)
  /\ (forall sockfd msg flags w w' o,
         ends k (recvmsg_retry P sockfd msg flags) w w' o ->
         thrown_by_switch P [ENOMEM P] o)
  /\ (platform_ok P ->
      forall this d w w' o,
        ends k (send_descriptor P this d) w w' o -> thrown_by_switch P [ENOMEM P] o).
Proof.
  split; [| split; [| split; [| split; [| split]]]].
  - intros. eapply bind_retry_verdict; eassumption.
  - intros. eapply connect_retry_verdict; eassumption.
  - intros. eapply accept_retry_verdict; eassumption.
  - intros. eapply sendmsg_retry_verdict; eassumption.
  - intros. eapply recvmsg_retry_verdict; eassumption.
  - intros P_ok this d w w' o H.
    unfold ends, exec, send_descriptor, and_then in H.
    rewrite (rights_message_built P P_ok d), bind_ret_l in H.
    eapply sendmsg_retry_verdict. exact H.
Qed.

(** X1 at work on Linux: a run of [send_descriptor] that throws a fatal
    error, and what the theorem makes of it. *)
Lemma exceptions_of_the_loops_tell_the_code_witness :
  In 12 [ENOMEM linux_x86_64] /\ 12 <> EINTR linux_x86_64.
Proof.
  refine (proj2 (proj2 (proj2 (proj2 (proj2
    (exceptions_of_the_loops_tell_the_code linux_x86_64
       (script [uniform (failure 4)] (uniform (failure 12)))))))) linux_x86_64_ok
    (assign empty_descriptor 5) (assign empty_descriptor 6) boot
    (answered boot
       (Sendmsg 5
          (store_first_cmsg (message_header linux_x86_64 [Some 0])
             {| cmsg_len := 20; cmsg_level := 1; cmsg_type := 1; cmsg_data := [6] |}) 0)
       1)
    (Thrown (posix_fatal_error 12)) _).
  apply (run_ends _ 10). vm_compute. reflexivity.
Defined.

(** X2.  Whatever the kernel answers, a run of the [bind], [connect] or
    [accept] loop that ends has issued its one call, with the same arguments
    each time, and nothing else; a run of the [recvmsg] loop that ends has
    issued only [recvmsg] calls on the same socket with the same flags. *)
Theorem loops_call_nothing_else (P : platform) (k : kernel) :
  (forall sockfd addr addrlen w w' o,
      ends k (bind_retry P sockfd addr addrlen) w w' o ->
      exists m, journal w'
                = (journal w ++ repeat (call_of (Bind sockfd addr addrlen)) m)%list)
  /\ (forall sockfd addr addrlen w w' o,
         ends k (connect_retry P sockfd addr addrlen) w w' o ->
         exists m, journal w'
                   = (journal w ++ repeat (call_of (Connect sockfd addr addrlen)) m)%list)
  /\ (forall sockfd w w' o,
         ends k (accept_retry P sockfd) w w' o ->
         exists m, journal w'
                   = (journal w ++ repeat (call_of (accept_call P sockfd)) m)%list)
  /\ (forall sockfd msg flags w w' o,
         ends k (recvmsg_retry P sockfd msg flags) w w' o ->
         exists calls, journal w' = (journal w ++ calls)%list
                       /\ Forall (is_recvmsg_on sockfd flags) calls).
Proof.
  split; [| split; [| split]]; intros.
  - eapply bind_retry_calls; eassumption.
  - eapply connect_retry_calls; eassumption.
  - eapply accept_retry_calls; eassumption.
  - eapply recvmsg_retry_calls; eassumption.
Qed.

(** X2 at work on Linux: [accept4] on the socket 3, interrupted twice. *)
Lemma loops_call_nothing_else_witness :
  exists m,
    journal (answered boot (accept_call linux_x86_64 3) 2)
    = (journal boot ++ repeat (call_of (accept_call linux_x86_64 3)) m)%list.
Proof.
  refine (proj1 (proj2 (proj2
    (loops_call_nothing_else linux_x86_64
       (script [uniform (failure 4); uniform (failure 4)] (uniform (success 8)))))) 3
    boot (answered boot (accept_call linux_x86_64 3) 2) (Returned 8) _).
  apply (run_ends _ 10). vm_compute. reflexivity.
Defined.

(** ** The failures of [send_descriptor] and [recv_descriptor] *)

Section Transfers.

Variable P : platform.
Variable k : kernel.

(** [recv_descriptor] when its loop does not return a header. *)
Lemma recv_descriptor_stops (this : local_socket) (w w0 : world) (o : outcome msghdr) :
  ends k (recvmsg_retry P (fd this) (message_header P [None])
            (or_if_defined 0 (MSG_CMSG_CLOEXEC P))) w w0 o ->
  stopped o ->
  ends k (recv_descriptor P this) w w0 (carry descriptor o).
Proof.
  intros Hloop Hstop. unfold recv_descriptor. cbv zeta.
  apply ends_and_then_stop; assumption.
Qed.

Lemma send_descriptor_fails (this : local_socket) (d : descriptor) (msg : msghdr)
      (w : world) (n : nat) (code : Z) :
  rights_message P d = Returned msg ->
  code <> EINTR P ->
  answers_after k w (Sendmsg (fd this) msg 0) n (failure (EINTR P)) (failure code) ->
  ends k (send_descriptor P this d) w (answered w (Sendmsg (fd this) msg 0) n)
    (if is_case code [ENOMEM P] then Thrown (posix_fatal_error code)
     else if is_case code [EBADF P] then Thrown posix_bad_descriptor
     else Thrown (posix_error code)).
Proof.
  intros Hmsg Hcode H. unfold send_descriptor.
  eapply ends_and_then_pure; [exact Hmsg |].
  unfold answered. rewrite <- ticks_eq. now apply sendmsg_retry_fails.
Qed.

Lemma recv_descriptor_fails (this : local_socket) (w : world) (n : nat) (code : Z)
      (msg' : msghdr) :
  code <> EINTR P ->
  answers_after k w (recvmsg_call P this) n
    (failure (EINTR P), message_header P [None]) (failure code, msg') ->
  ends k (recv_descriptor P this) w (received P this w n)
    (carry (A := msghdr) descriptor
       (if is_case code [ENOMEM P] then Thrown (posix_fatal_error code)
        else if is_case code [EBADF P] then Thrown posix_bad_descriptor
        else Thrown (posix_error code))).
Proof.
  intros Hcode H. apply recv_descriptor_stops.
  - unfold received, answered. rewrite <- ticks_eq.
    now apply recvmsg_retry_fails with msg'.
  - repeat match goal with |- context [if ?b then _ else _] => destruct b end;
      exact Logic.I.
Qed.

(** [d.cloexec(state)], and a function that returns [r] after it. *)
Lemma cloexec_ends (d : descriptor) (state : bool) (w : world) :
  ends k (cloexec d state) w (tick w (Cloexec d state))
    (match k (clock w) _ (Cloexec d state) with
     | None => Returned tt
     | Some e => Thrown e
     end).
Proof.
  unfold cloexec. apply ends_call. destruct (k _ _ _); apply ends_ret.
Qed.

Lemma cloexec_then_return {R} (d : descriptor) (state : bool) (r : R) (w : world) :
  ends k (and_then (cloexec d state) (fun _ => Ret (Returned r))) w
    (tick w (Cloexec d state))
    (match k (clock w) _ (Cloexec d state) with
     | None => Returned r
     | Some e => Thrown e
     end).
Proof.
  pose proof (ends_and_then_return k (cloexec d state) r w _ _ (cloexec_ends d state w))
    as H.
  destruct (k _ _ _); exact H.
Qed.

(** [recv_descriptor] when the header holds a rights record. *)
Lemma recv_descriptor_extracts (this : local_socket) (w : world) (n : nat)
      (ret : sysret) (msg' : msghdr) (cmsg : cmsghdr) (handle_here : Z) (more : list Z) :
  rc ret <> -1 ->
  answers_after k w (recvmsg_call P this) n
    (failure (EINTR P), message_header P [None]) (ret, msg') ->
  CMSG_FIRSTHDR P msg' = cmsg_at cmsg ->
  cmsg_len cmsg = CMSG_LEN P (sizeof_int P) ->
  cmsg_level cmsg = SOL_SOCKET P ->
  cmsg_type cmsg = SCM_RIGHTS P ->
  cmsg_data cmsg = handle_here :: more ->
  ends k (recv_descriptor P this) w
    (match MSG_CMSG_CLOEXEC P with
     | Some _ => received P this w n
     | None =>
         tick (received P this w n)
           (Cloexec (assign empty_descriptor handle_here) true)
     end)
    (match MSG_CMSG_CLOEXEC P with
     | Some _ => Returned (assign empty_descriptor handle_here)
     | None =>
         match k (clock (received P this w n)) _
                 (Cloexec (assign empty_descriptor handle_here) true) with
         | None => Returned (assign empty_descriptor handle_here)
         | Some e => Thrown e
         end
     end).
Proof.
  intros Hrc H Hat Hlen Hlevel Htype Hdata.
  eapply recv_descriptor_ends; [apply (recvmsg_received P k this w n ret msg' Hrc H) |].
  unfold extract_descriptor.
  rewrite Hat, Hlen, Hlevel, Htype, Hdata, !Z.eqb_refl. cbn [negb].
  unfold return_received. destruct (MSG_CMSG_CLOEXEC P) as [bit|].
  - apply ends_ret.
  - apply cloexec_then_return.
Qed.

(** [recv_descriptor] when the header holds no rights record and
    [MSG_CMSG_CLOEXEC] is undefined. *)
Lemma recv_descriptor_nothing_fallback (this : local_socket) (w : world) (n : nat)
      (ret : sysret) (msg' : msghdr) :
  MSG_CMSG_CLOEXEC P = None ->
  rc ret <> -1 ->
  answers_after k w (recvmsg_call P this) n
    (failure (EINTR P), message_header P [None]) (ret, msg') ->
  no_rights_record P msg' ->
  ends k (recv_descriptor P this) w
    (tick (received P this w n) (Cloexec empty_descriptor true))
    (match k (clock (received P this w n)) _ (Cloexec empty_descriptor true) with
     | None => Returned empty_descriptor
     | Some e => Thrown e
     end).
Proof.
  intros Hnone Hrc H Hno.
  eapply recv_descriptor_ends; [apply (recvmsg_received P k this w n ret msg' Hrc H) |].
  rewrite (extract_nothing P msg' Hno). unfold return_received. rewrite Hnone.
  apply cloexec_then_return.
Qed.

End Transfers.

(** X3.  When the [sendmsg] call of [send_descriptor] fails (after any number
    of interruptions), [send_descriptor] throws [posix::fatal_error] with the
    code for [ENOMEM], [posix::bad_descriptor] for [EBADF], and
    [posix::error] with the code for every other one, having made no other
    call than [sendmsg] of its message. *)
Theorem send_descriptor_failures_are_classified
  (P : platform) (k : kernel) (this : local_socket) (d : descriptor) (w : world)
  (n : nat) (code : Z) :
  platform_ok P ->
  exists msg,
    rights_message P d = Returned msg
    /\ (answers_after k w (Sendmsg (fd this) msg 0) n (failure (EINTR P))
          (failure code) ->
        (code = ENOMEM P ->
         ends k (send_descriptor P this d) w (answered w (Sendmsg (fd this) msg 0) n)
           (Thrown (posix_fatal_error code)))
        /\ (code = EBADF P ->
            ends k (send_descriptor P this d) w (answered w (Sendmsg (fd this) msg 0) n)
              (Thrown posix_bad_descriptor))
        /\ (code <> ENOMEM P -> code <> EBADF P -> code <> EINTR P ->
            ends k (send_descriptor P this d) w (answered w (Sendmsg (fd this) msg 0) n)
              (Thrown (posix_error code)))).
Proof.
  intros P_ok. pose proof (rights_message_built P P_ok d) as Hmsg.
  eexists. split; [exact Hmsg |].
  intros Hk.
  pose proof (fun Hne => send_descriptor_fails P k this d _ w n code Hmsg Hne Hk)
    as Hfails.
  destruct P_ok.
  split; [| split].
  - intros Hcode. assert (Hne : code <> EINTR P) by congruence.
    specialize (Hfails Hne). revert Hfails. switch_errno. auto.
  - intros Hcode. assert (Hne : code <> EINTR P) by congruence.
    specialize (Hfails Hne). revert Hfails. switch_errno. auto.
  - intros Hmem Hbad Hne.
    specialize (Hfails Hne). revert Hfails. switch_errno. auto.
Qed.

Lemma send_descriptor_failures_are_classified_witness :
  exists msg,
    rights_message linux_x86_64 (assign empty_descriptor 7) = Returned msg
    /\ ends (fun n => script [uniform (failure 4)] (uniform (failure 12)) n)
         (send_descriptor linux_x86_64 (assign empty_descriptor 3)
            (assign empty_descriptor 7))
         boot (answered boot (Sendmsg 3 msg 0) 1) (Thrown (posix_fatal_error 12)).
Proof.
  destruct (send_descriptor_failures_are_classified linux_x86_64
              (fun n => script [uniform (failure 4)] (uniform (failure 12)) n)
              (assign empty_descriptor 3) (assign empty_descriptor 7) boot 1 12
              linux_x86_64_ok) as [msg [Hmsg H]].
  exists msg. split; [exact Hmsg |].
  apply H; [| reflexivity].
  split; [| reflexivity].
  intros i Hi. assert (i = 0%nat) by lia. subst i. reflexivity.
Defined.

(** X4.  When the [recvmsg] call of [recv_descriptor] fails (after any number
    of interruptions), [recv_descriptor] throws [posix::fatal_error] with the
    code for [ENOMEM], [posix::bad_descriptor] for [EBADF], and
    [posix::error] with the code for every other one; it has then made the
    [recvmsg] calls only: [descriptor::cloexec] is not reached. *)
Theorem recv_descriptor_failures_are_classified
  (P : platform) (k : kernel) (this : local_socket) (w : world) (n : nat) (code : Z)
  (msg' : msghdr) :
  platform_ok P ->
  answers_after k w (recvmsg_call P this) n
    (failure (EINTR P), message_header P [None]) (failure code, msg') ->
  (code = ENOMEM P ->
   ends k (recv_descriptor P this) w (received P this w n)
     (Thrown (posix_fatal_error code)))
  /\ (code = EBADF P ->
      ends k (recv_descriptor P this) w (received P this w n)
        (Thrown posix_bad_descriptor))
  /\ (code <> ENOMEM P -> code <> EBADF P -> code <> EINTR P ->
      ends k (recv_descriptor P this) w (received P this w n)
        (Thrown (posix_error code))).
Proof.
  intros P_ok Hk.
  pose proof (fun Hne => recv_descriptor_fails P k this w n code msg' Hne Hk) as Hfails.
  destruct P_ok.
  split; [| split].
  - intros Hcode. assert (Hne : code <> EINTR P) by congruence.
    specialize (Hfails Hne). revert Hfails. switch_errno. auto.
  - intros Hcode. assert (Hne : code <> EINTR P) by congruence.
    specialize (Hfails Hne). revert Hfails. switch_errno. auto.
  - intros Hmem Hbad Hne.
    specialize (Hfails Hne). revert Hfails. switch_errno. auto.
Qed.

Lemma recv_descriptor_failures_are_classified_witness :
  ends (fun n => script [uniform (failure 4)] (uniform (failure 9)) n)
    (recv_descriptor bsd_like (assign empty_descriptor 3))
    boot (received bsd_like (assign empty_descriptor 3) boot 1)
    (Thrown posix_bad_descriptor).
Proof.
  apply (recv_descriptor_failures_are_classified bsd_like
           (fun n => script [uniform (failure 4)] (uniform (failure 9)) n)
           (assign empty_descriptor 3) boot 1 9 (message_header bsd_like [None])
           bsd_like_ok); [| reflexivity].
  split; [| reflexivity].
  intros i Hi. assert (i = 0%nat) by lia. subst i. reflexivity.
Defined.

(** X5.  After a successful receive (interrupted [n] times before) whose
    first control message has the length of one [int] record, level
    [SOL_SOCKET] and type [SCM_RIGHTS], [recv_descriptor] returns a
    descriptor that owns the first [int] of the record, whatever byte count
    [recvmsg] returned and whatever follows in the record.  Where
    [MSG_CMSG_CLOEXEC] is defined nothing is called after [recvmsg]; where
    it is not, [cloexec(true)] is called on that descriptor, and what it
    throws is what [recv_descriptor] throws. *)
Theorem recv_descriptor_returns_the_received_handle
  (P : platform) (k : kernel) (this : local_socket) (w : world) (n : nat)
  (ret : sysret) (msg' : msghdr) (cmsg : cmsghdr) (handle_here : Z) (more : list Z) :
  rc ret <> -1 ->
  answers_after k w (recvmsg_call P this) n
    (failure (EINTR P), message_header P [None]) (ret, msg') ->
  CMSG_FIRSTHDR P msg' = cmsg_at cmsg ->
  cmsg_len cmsg = CMSG_LEN P (sizeof_int P) ->
  cmsg_level cmsg = SOL_SOCKET P ->
  cmsg_type cmsg = SCM_RIGHTS P ->
  cmsg_data cmsg = handle_here :: more ->
  let result := assign empty_descriptor handle_here in
  let after := tick (received P this w n) (Cloexec result true) in
  fd result = handle_here
  /\ (MSG_CMSG_CLOEXEC P <> None ->
      ends k (recv_descriptor P this) w (received P this w n) (Returned result))
  /\ (MSG_CMSG_CLOEXEC P = None ->
      k (clock (received P this w n)) _ (Cloexec result true) = None ->
      ends k (recv_descriptor P this) w after (Returned result))
  /\ (MSG_CMSG_CLOEXEC P = None ->
      forall e, k (clock (received P this w n)) _ (Cloexec result true) = Some e ->
      ends k (recv_descriptor P this) w after (Thrown e)).
Proof.
  intros Hrc H Hat Hlen Hlevel Htype Hdata result after.
  pose proof (recv_descriptor_extracts P k this w n ret msg' cmsg handle_here more
                Hrc H Hat Hlen Hlevel Htype Hdata) as Hends.
  fold result in Hends. fold after in Hends.
  split; [reflexivity |].
  destruct (MSG_CMSG_CLOEXEC P) as [bit |].
  - split; [intros _; exact Hends |]. split; discriminate.
  - split; [intros Habs; now elim Habs |].
    split.
    + intros _ Hcloexec. now rewrite Hcloexec in Hends.
    + intros _ e Hcloexec. now rewrite Hcloexec in Hends.
Qed.

Lemma recv_descriptor_returns_the_received_handle_witness :
  ends (script [uniform (failure 4);
                receiving 1
                  (header_with_control bsd_like
                     {| cmsg_len := 16; cmsg_level := 65535; cmsg_type := 1;
                        cmsg_data := [5; 6] |})]
          (cloexec_throws (posix_error 9)))
    (recv_descriptor bsd_like (assign empty_descriptor 3))
    boot
    (tick (received bsd_like (assign empty_descriptor 3) boot 1)
       (Cloexec (assign empty_descriptor 5) true))
    (Thrown (posix_error 9)).
Proof.
  refine (proj2 (proj2 (proj2
    (recv_descriptor_returns_the_received_handle bsd_like
       (script [uniform (failure 4);
                receiving 1
                  (header_with_control bsd_like
                     {| cmsg_len := 16; cmsg_level := 65535; cmsg_type := 1;
                        cmsg_data := [5; 6] |})]
          (cloexec_throws (posix_error 9)))
       (assign empty_descriptor 3) boot 1 (success 1)
       (header_with_control bsd_like
          {| cmsg_len := 16; cmsg_level := 65535; cmsg_type := 1;
             cmsg_data := [5; 6] |})
       {| cmsg_len := 16; cmsg_level := 65535; cmsg_type := 1; cmsg_data := [5; 6] |}
       5 [6] _ _ _ _ _ _ _))) _ (posix_error 9) _);
    try reflexivity; try discriminate.
  split; [| reflexivity].
  intros i Hi. assert (i = 0%nat) by lia. subst i. reflexivity.
Defined.

(** X6.  [recv_descriptor] accepts what [send_descriptor] sends.  On a
    platform with sound headers the message [send_descriptor] builds passes
    the three tests of [recv_descriptor] (length, level, type); so when the
    kernel delivers it, with the handle the descriptor got in the receiving
    process, [recv_descriptor] returns a descriptor owning that handle (where
    [MSG_CMSG_CLOEXEC] is undefined: once [cloexec(true)] returned). *)
Theorem recv_descriptor_accepts_what_send_descriptor_builds
  (P : platform) (k : kernel) (this : local_socket) (d : descriptor) (w : world)
  (n : nat) (ret : sysret) (handle_here : Z) :
  platform_ok P ->
  exists sent,
    rights_message P d = Returned sent
    /\ extract_descriptor P empty_descriptor (delivered P sent handle_here)
       = return_received P (assign empty_descriptor handle_here)
    /\ (rc ret <> -1 ->
        answers_after k w (recvmsg_call P this) n
          (failure (EINTR P), message_header P [None])
          (ret, delivered P sent handle_here) ->
        (MSG_CMSG_CLOEXEC P = None ->
         k (clock (received P this w n)) _
           (Cloexec (assign empty_descriptor handle_here) true) = None) ->
        exists w',
          ends k (recv_descriptor P this) w w'
            (Returned (assign empty_descriptor handle_here))).
Proof.
  intros P_ok. pose proof (rights_message_built P P_ok d) as Hmsg.
  pose proof (cmsghdr_fits P P_ok) as Hfits. apply Z.leb_le in Hfits.
  eexists. split; [exact Hmsg |].
  assert (Hat : CMSG_FIRSTHDR P
                  (delivered P
                     (store_first_cmsg (message_header P [Some 0])
                        {| cmsg_len := CMSG_LEN P (sizeof_int P);
                           cmsg_level := SOL_SOCKET P;
                           cmsg_type := SCM_RIGHTS P;
                           cmsg_data := [fd d] |}) handle_here)
                = cmsg_at {| cmsg_len := CMSG_LEN P (sizeof_int P);
                             cmsg_level := SOL_SOCKET P;
                             cmsg_type := SCM_RIGHTS P;
                             cmsg_data := [handle_here] |}).
  { unfold CMSG_FIRSTHDR. cbn. now rewrite Hfits. }
  split.
  - unfold extract_descriptor. rewrite Hat. cbn. now rewrite !Z.eqb_refl.
  - intros Hrc Hk Hcloexec.
    pose proof (recv_descriptor_extracts P k this w n ret _ _ handle_here []
                  Hrc Hk Hat eq_refl eq_refl eq_refl eq_refl) as Hends.
    destruct (MSG_CMSG_CLOEXEC P) as [bit |].
    + eexists. exact Hends.
    + rewrite (Hcloexec eq_refl) in Hends. eexists. exact Hends.
Qed.

Lemma recv_descriptor_accepts_what_send_descriptor_builds_witness :
  exists sent,
    rights_message linux_x86_64 (assign empty_descriptor 7) = Returned sent
    /\ exists w',
         ends (script [receiving 1 (delivered linux_x86_64 sent 5)]
                 (uniform (success 0)))
           (recv_descriptor linux_x86_64 (assign empty_descriptor 3)) boot w'
           (Returned (assign empty_descriptor 5)).
Proof.
  destruct (recv_descriptor_accepts_what_send_descriptor_builds linux_x86_64
              (script [receiving 1
                         (delivered linux_x86_64
                            (store_first_cmsg (message_header linux_x86_64 [Some 0])
                               {| cmsg_len := 20; cmsg_level := 1; cmsg_type := 1;
                                  cmsg_data := [7] |}) 5)]
                 (uniform (success 0)))
              (assign empty_descriptor 3) (assign empty_descriptor 7) boot 0
              (success 1) 5 linux_x86_64_ok) as [sent [Hsent [_ H]]].
  exists sent. split; [exact Hsent |].
  assert (Heq : sent = store_first_cmsg (message_header linux_x86_64 [Some 0])
                         {| cmsg_len := 20; cmsg_level := 1; cmsg_type := 1;
                            cmsg_data := [7] |})
    by (vm_compute in Hsent; injection Hsent as <-; reflexivity).
  rewrite <- Heq in H.
  apply H.
  - discriminate.
  - split; [intros i Hi; lia |]. rewrite Heq. reflexivity.
  - discriminate.
Defined.

(** X7.  The level of the received record is tested before its type: with a
    first control message of the length of one [int] record, a level other
    than [SOL_SOCKET] gives [std::logic_error("invalid cmsg_level")]
    whatever the type is, and the level [SOL_SOCKET] with a type other than
    [SCM_RIGHTS] gives [std::logic_error("invalid cmsg_type")].  In both
    cases nothing is called after [recvmsg], also where [MSG_CMSG_CLOEXEC]
    is undefined. *)
Theorem recv_descriptor_tests_the_level_before_the_type
  (P : platform) (k : kernel) (this : local_socket) (w : world) (n : nat)
  (ret : sysret) (msg' : msghdr) (cmsg : cmsghdr) :
  rc ret <> -1 ->
  answers_after k w (recvmsg_call P this) n
    (failure (EINTR P), message_header P [None]) (ret, msg') ->
  CMSG_FIRSTHDR P msg' = cmsg_at cmsg ->
  cmsg_len cmsg = CMSG_LEN P (sizeof_int P) ->
  (cmsg_level cmsg <> SOL_SOCKET P ->
   ends k (recv_descriptor P this) w (received P this w n)
     (Thrown (std_logic_error "invalid cmsg_level")))
  /\ (cmsg_level cmsg = SOL_SOCKET P -> cmsg_type cmsg <> SCM_RIGHTS P ->
      ends k (recv_descriptor P this) w (received P this w n)
        (Thrown (std_logic_error "invalid cmsg_type"))).
Proof.
  intros Hrc H Hat Hlen. split.
  - intros Hlevel.
    pose proof (recv_descriptor_mismatch P k this w n ret msg' cmsg Hrc H Hat Hlen
                  (or_introl Hlevel)) as Hends.
    apply Z.eqb_neq in Hlevel. now rewrite Hlevel in Hends.
  - intros Hlevel Htype.
    pose proof (recv_descriptor_mismatch P k this w n ret msg' cmsg Hrc H Hat Hlen
                  (or_intror Htype)) as Hends.
    apply Z.eqb_eq in Hlevel. now rewrite Hlevel in Hends.
Qed.

Lemma recv_descriptor_tests_the_level_before_the_type_witness :
  ends (script [receiving 1
                  (header_with_control bsd_like
                     {| cmsg_len := 16; cmsg_level := 0; cmsg_type := 2;
                        cmsg_data := [5] |})]
          (uniform (success 0)))
    (recv_descriptor bsd_like (assign empty_descriptor 3))
    boot (received bsd_like (assign empty_descriptor 3) boot 0)
    (Thrown (std_logic_error "invalid cmsg_level")).
Proof.
  refine (proj1
    (recv_descriptor_tests_the_level_before_the_type bsd_like
       (script [receiving 1
                  (header_with_control bsd_like
                     {| cmsg_len := 16; cmsg_level := 0; cmsg_type := 2;
                        cmsg_data := [5] |})]
          (uniform (success 0)))
       (assign empty_descriptor 3) boot 0 (success 1)
       (header_with_control bsd_like
          {| cmsg_len := 16; cmsg_level := 0; cmsg_type := 2; cmsg_data := [5] |})
       {| cmsg_len := 16; cmsg_level := 0; cmsg_type := 2; cmsg_data := [5] |}
       _ _ _ _) _); try reflexivity; try discriminate.
  split; [intros i Hi; lia | reflexivity].
Defined.

(** X8.  Where [MSG_CMSG_CLOEXEC] is undefined, [recv_descriptor] calls
    [cloexec(true)] on its result even when it received no rights record,
    that is on the empty descriptor; when that call throws,
    [recv_descriptor] throws the same exception instead of returning the
    empty descriptor. *)
Theorem recv_descriptor_sets_cloexec_on_the_empty_result
  (P : platform) (k : kernel) (this : local_socket) (w : world) (n : nat)
  (ret : sysret) (msg' : msghdr) :
  MSG_CMSG_CLOEXEC P = None ->
  rc ret <> -1 ->
  answers_after k w (recvmsg_call P this) n
    (failure (EINTR P), message_header P [None]) (ret, msg') ->
  no_rights_record P msg' ->
  let after := tick (received P this w n) (Cloexec empty_descriptor true) in
  journal after
  = (journal w ++ repeat (call_of (recvmsg_call P this)) (S n)
     ++ [call_of (Cloexec empty_descriptor true)])%list
  /\ (k (clock (received P this w n)) _ (Cloexec empty_descriptor true) = None ->
      ends k (recv_descriptor P this) w after (Returned empty_descriptor))
  /\ (forall e,
        k (clock (received P this w n)) _ (Cloexec empty_descriptor true) = Some e ->
        ends k (recv_descriptor P this) w after (Thrown e)).
Proof.
  intros Hnone Hrc H Hno after.
  pose proof (recv_descriptor_nothing_fallback P k this w n ret msg' Hnone Hrc H Hno)
    as Hends.
  fold after in Hends.
  split; [| split].
  - unfold after, tick, received, answered. cbn [journal]. now rewrite <- app_assoc.
  - intros Hcloexec. now rewrite Hcloexec in Hends.
  - intros e Hcloexec. now rewrite Hcloexec in Hends.
Qed.

Lemma recv_descriptor_sets_cloexec_on_the_empty_result_witness :
  ends (script [receiving 0 (header_without_control bsd_like)]
          (cloexec_throws posix_bad_descriptor))
    (recv_descriptor bsd_like (assign empty_descriptor 3))
    boot
    (tick (received bsd_like (assign empty_descriptor 3) boot 0)
       (Cloexec empty_descriptor true))
    (Thrown posix_bad_descriptor).
Proof.
  refine (proj2 (proj2
    (recv_descriptor_sets_cloexec_on_the_empty_result bsd_like
       (script [receiving 0 (header_without_control bsd_like)]
          (cloexec_throws posix_bad_descriptor))
       (assign empty_descriptor 3) boot 0 (success 0)
       (header_without_control bsd_like) _ _ _ _)) posix_bad_descriptor _);
    try reflexivity; try discriminate.
  - split; [intros i Hi; lia | reflexivity].
  - left. reflexivity.
Defined.

(** ** Creation: the successful paths, and close-on-exec *)

Section Creation.

Variable P : platform.
Variable k : kernel.

(** The type argument of [socket] and [socketpair]. *)
Lemma socket_type_with_flag (bit : Z) :
  SOCK_CLOEXEC P = Some bit ->
  Z.lor (SOCK_STREAM P) (or_if_defined 0 (SOCK_CLOEXEC P)) = Z.lor (SOCK_STREAM P) bit.
Proof. intros ->. cbn [or_if_defined]. now rewrite Z.lor_0_l. Qed.

Lemma socket_type_without_flag :
  SOCK_CLOEXEC P = None ->
  Z.lor (SOCK_STREAM P) (or_if_defined 0 (SOCK_CLOEXEC P)) = SOCK_STREAM P.
Proof. intros ->. cbn [or_if_defined]. now rewrite Z.lor_0_r. Qed.

(** The constructor when [socket] does not return -1. *)
Lemma local_socket_new_succeeds (w : world) (r : sysret) :
  k (clock w) _ (socket_call P) = r ->
  rc r <> -1 ->
  ends k (local_socket_new P) w
    (match SOCK_CLOEXEC P with
     | Some _ => tick w (socket_call P)
     | None => tick (tick w (socket_call P)) (Cloexec (assign empty_descriptor (rc r)) true)
     end)
    (match SOCK_CLOEXEC P with
     | Some _ => Returned (assign empty_descriptor (rc r))
     | None =>
         match k (S (clock w)) _ (Cloexec (assign empty_descriptor (rc r)) true) with
         | None => Returned (assign empty_descriptor (rc r))
         | Some e => Thrown e
         end
     end).
Proof.
  intros Hk Hrc. unfold local_socket_new. apply ends_call.
  fold (socket_call P). rewrite Hk. cbv zeta.
  apply Z.eqb_neq in Hrc. rewrite Hrc.
  destruct (SOCK_CLOEXEC P) as [bit |].
  - apply ends_ret.
  - apply (cloexec_then_return k (assign empty_descriptor (rc r)) true
             (assign empty_descriptor (rc r)) (tick w (socket_call P))).
Qed.

(** [pair] when [socketpair] does not return -1. *)
Lemma pair_succeeds (w : world) (r : sysret) (fds : Z * Z) :
  k (clock w) _ (socketpair_call P) = (r, fds) ->
  rc r <> -1 ->
  let first := assign empty_descriptor (fst fds) in
  let second := assign empty_descriptor (snd fds) in
  let w1 := tick w (socketpair_call P) in
  let w2 := tick w1 (Cloexec first true) in
  let w3 := tick w2 (Cloexec second true) in
  match SOCK_CLOEXEC P with
  | Some _ => ends k (pair P) w w1 (Returned (first, second))
  | None =>
      match k (S (clock w)) _ (Cloexec first true) with
      | Some e => ends k (pair P) w w2 (Thrown e)
      | None =>
          match k (S (S (clock w))) _ (Cloexec second true) with
          | Some e => ends k (pair P) w w3 (Thrown e)
          | None => ends k (pair P) w w3 (Returned (first, second))
          end
      end
  end.
Proof.
  intros Hk Hrc first second w1 w2 w3.
  assert (Hcall : forall w' o,
             ends k
               ((fun '(r, fds) =>
                   if rc r =? -1 then
                     if is_case (errno r) [EMFILE P; ENFILE P; ENOMEM P]
                     then Ret (Thrown (posix_fatal_error (errno r)))
                     else Ret (Thrown (posix_error (errno r)))
                   else
                     let pair := (assign empty_descriptor (fst fds),
                                  assign empty_descriptor (snd fds)) in
                     match SOCK_CLOEXEC P with
                     | Some _ => Ret (Returned pair)
                     | None =>
                         _ <-- cloexec (fst pair) true ;;;
                         _ <-- cloexec (snd pair) true ;;;
                         Ret (Returned pair)
                     end) (k (clock w) _ (socketpair_call P))) w1 w' o ->
             ends k (pair P) w w' o).
  { intros w' o H. unfold pair. apply ends_call. exact H. }
  rewrite Hk in Hcall. cbv zeta in Hcall.
  apply Z.eqb_neq in Hrc. rewrite Hrc in Hcall. cbn [fst snd] in Hcall.
  fold first in Hcall. fold second in Hcall.
  destruct (SOCK_CLOEXEC P) as [bit |].
  - apply Hcall. apply ends_ret.
  - pose proof (cloexec_ends k first true w1) as H1.
    pose proof (cloexec_then_return k second true (first, second) w2) as H2.
    change (clock w1) with (S (clock w)) in H1.
    change (clock w2) with (S (S (clock w))) in H2.
    fold w2 in H1. fold w3 in H2.
    destruct (k (S (clock w)) _ (Cloexec first true)) as [e |].
    + apply Hcall.
      exact (ends_and_then_stop k _ _ w1 w2 (Thrown e) H1 Logic.I).
    + destruct (k (S (S (clock w))) _ (Cloexec second true));
        apply Hcall; (eapply ends_and_then; [exact H1 | exact H2]).
Qed.

(** A function that starts by creating a socket ends like the constructor
    when the constructor does not return. *)
Lemma bind_without_socket (p : pathname) (w w0 : world) (o : outcome local_socket) :
  assert_not_empty P p = Returned tt ->
  ends k (local_socket_new P) w w0 o -> stopped o ->
  ends k (bind P p) w w0 (carry local_socket o).
Proof.
  intros Hassert Hnew Hstop. unfold bind.
  eapply ends_and_then_pure; [exact Hassert |].
  apply ends_and_then_stop; assumption.
Qed.

Lemma connect_without_socket (p : pathname) (w w0 : world) (o : outcome local_socket) :
  assert_not_empty P p = Returned tt ->
  ends k (local_socket_new P) w w0 o -> stopped o ->
  ends k (connect P p) w w0 (carry local_socket o).
Proof.
  intros Hassert Hnew Hstop. unfold connect.
  eapply ends_and_then_pure; [exact Hassert |].
  apply ends_and_then_stop; assumption.
Qed.

Lemma accept_without_socket (this : local_socket) (w w0 : world)
      (o : outcome local_socket) :
  ends k (local_socket_new P) w w0 o -> stopped o ->
  ends k (accept P this) w w0 (carry local_socket o).
Proof.
  intros Hnew Hstop. unfold accept. apply ends_and_then_stop; assumption.
Qed.

(** [accept] once its loop returned [connfd]. *)
Lemma accept_connected (this : local_socket) (w w0 w1 : world)
      (connection : local_socket) (connfd : Z) :
  ends k (local_socket_new P) w w0 (Returned connection) ->
  ends k (accept_retry P (fd this)) w0 w1 (Returned connfd) ->
  ends k (accept P this) w
    (if accept_is_atomic P then w1
     else tick w1 (Cloexec (assign connection connfd) true))
    (if accept_is_atomic P then Returned (assign connection connfd)
     else match k (clock w1) _ (Cloexec (assign connection connfd) true) with
          | None => Returned (assign connection connfd)
          | Some e => Thrown e
          end).
Proof.
  intros Hnew Hloop. unfold accept.
  eapply ends_and_then; [exact Hnew |].
  eapply ends_and_then; [exact Hloop |]. cbv zeta.
  destruct (accept_is_atomic P).
  - apply ends_ret.
  - apply cloexec_then_return.
Qed.

End Creation.

(** X9.  A socket the constructor returns is close-on-exec, one way or the
    other.  When [socket] does not return -1 the new object owns the value
    returned.  Where [SOCK_CLOEXEC] is defined it is or-ed into the type
    argument of [socket], which is the only call.  Where it is not, the
    type argument is [SOCK_STREAM] alone and [cloexec(true)] is called on
    the new object right after; the constructor returns only if that call
    returns, and throws what it throws otherwise. *)
Theorem local_socket_new_requests_close_on_exec
  (P : platform) (k : kernel) (w : world) (r : sysret) :
  k (clock w) _ (socket_call P) = r ->
  rc r <> -1 ->
  let this := assign empty_descriptor (rc r) in
  let created := tick w (socket_call P) in
  fd this = rc r
  /\ (forall bit, SOCK_CLOEXEC P = Some bit ->
      socket_call P = Socket (AF_LOCAL P) (Z.lor (SOCK_STREAM P) bit) 0
      /\ ends k (local_socket_new P) w created (Returned this))
  /\ (SOCK_CLOEXEC P = None ->
      socket_call P = Socket (AF_LOCAL P) (SOCK_STREAM P) 0
      /\ (k (S (clock w)) _ (Cloexec this true) = None ->
          ends k (local_socket_new P) w (tick created (Cloexec this true))
            (Returned this))
      /\ (forall e, k (S (clock w)) _ (Cloexec this true) = Some e ->
          ends k (local_socket_new P) w (tick created (Cloexec this true))
            (Thrown e))).
Proof.
  intros Hk Hrc this created.
  pose proof (local_socket_new_succeeds P k w r Hk Hrc) as Hends.
  fold this in Hends. fold created in Hends.
  split; [reflexivity |]. split.
  - intros bit Hbit. split.
    + unfold socket_call. now rewrite (socket_type_with_flag P bit Hbit).
    + now rewrite Hbit in Hends.
  - intros Hnone. split; [| split].
    + unfold socket_call. now rewrite (socket_type_without_flag P Hnone).
    + intros Hcloexec. now rewrite Hnone, Hcloexec in Hends.
    + intros e Hcloexec. now rewrite Hnone, Hcloexec in Hends.
Qed.

Lemma local_socket_new_requests_close_on_exec_witness :
  ends (script [uniform (success 3)] (cloexec_throws (posix_error 9)))
    (local_socket_new bsd_like) boot
    (tick (tick boot (socket_call bsd_like))
       (Cloexec (assign empty_descriptor 3) true))
    (Thrown (posix_error 9)).
Proof.
  refine (proj2 (proj2 (proj2 (proj2
    (local_socket_new_requests_close_on_exec bsd_like
       (script [uniform (success 3)] (cloexec_throws (posix_error 9)))
       boot (success 3) _ _)) _)) (posix_error 9) _);
    try reflexivity; discriminate.
Defined.

(** X10.  [pair] on success: the two sockets own [fds[0]] and [fds[1]] as
    [socketpair] filled them.  Where [SOCK_CLOEXEC] is defined it is or-ed
    into the type argument and [socketpair] is the only call.  Where it is
    not, [cloexec(true)] is called on the first socket and then on the
    second; if the first call throws, the second socket is never made
    close-on-exec and [pair] throws the same exception, and so it does if
    the second call throws. *)
Theorem pair_requests_close_on_exec
  (P : platform) (k : kernel) (w : world) (r : sysret) (fds : Z * Z) :
  k (clock w) _ (socketpair_call P) = (r, fds) ->
  rc r <> -1 ->
  let first := assign empty_descriptor (fst fds) in
  let second := assign empty_descriptor (snd fds) in
  let w1 := tick w (socketpair_call P) in
  let w2 := tick w1 (Cloexec first true) in
  let w3 := tick w2 (Cloexec second true) in
  (forall bit, SOCK_CLOEXEC P = Some bit ->
   socketpair_call P = Socketpair (AF_LOCAL P) (Z.lor (SOCK_STREAM P) bit) 0 (0, 0)
   /\ ends k (pair P) w w1 (Returned (first, second)))
  /\ (SOCK_CLOEXEC P = None ->
      socketpair_call P = Socketpair (AF_LOCAL P) (SOCK_STREAM P) 0 (0, 0)
      /\ (forall e, k (S (clock w)) _ (Cloexec first true) = Some e ->
          ends k (pair P) w w2 (Thrown e))
      /\ (forall e, k (S (clock w)) _ (Cloexec first true) = None ->
          k (S (S (clock w))) _ (Cloexec second true) = Some e ->
          ends k (pair P) w w3 (Thrown e))
      /\ (k (S (clock w)) _ (Cloexec first true) = None ->
          k (S (S (clock w))) _ (Cloexec second true) = None ->
          ends k (pair P) w w3 (Returned (first, second)))).
Proof.
  intros Hk Hrc first second w1 w2 w3.
  pose proof (pair_succeeds P k w r fds Hk Hrc) as Hends. cbv zeta in Hends.
  fold first in Hends. fold second in Hends. fold w1 in Hends.
  fold w2 in Hends. fold w3 in Hends.
  split.
  - intros bit Hbit. split.
    + unfold socketpair_call. now rewrite (socket_type_with_flag P bit Hbit).
    + now rewrite Hbit in Hends.
  - intros Hnone. rewrite Hnone in Hends. split; [| split; [| split]].
    + unfold socketpair_call. now rewrite (socket_type_without_flag P Hnone).
    + intros e H1. now rewrite H1 in Hends.
    + intros e H1 H2. now rewrite H1, H2 in Hends.
    + intros H1 H2. now rewrite H1, H2 in Hends.
Qed.

Lemma pair_requests_close_on_exec_witness :
  ends (script [pairing (3, 4)]
          (cloexec_throws posix_bad_descriptor))
    (pair bsd_like) boot
    (tick (tick boot (socketpair_call bsd_like))
       (Cloexec (assign empty_descriptor 3) true))
    (Thrown posix_bad_descriptor).
Proof.
  refine (proj1 (proj2 (proj2
    (pair_requests_close_on_exec bsd_like
       (script [pairing (3, 4)]
          (cloexec_throws posix_bad_descriptor))
       boot (success 0) (3, 4) _ _) _)) posix_bad_descriptor _);
    try reflexivity; discriminate.
Defined.

(** X11.  [bind], [connect] and [accept] each start by creating a socket.
    When that [socket] call fails, each of them throws what the constructor
    throws ([posix::fatal_error] for [EMFILE], [ENFILE], [ENOBUFS],
    [ENOMEM]; [posix::error] for every other code, [EINTR] and [EBADF]
    included: the call is not issued again) and [socket] is the only call
    made: nothing is bound, connected or accepted, and the pathname is not
    copied, however long it is. *)
Theorem socket_failure_ends_bind_connect_and_accept
  (P : platform) (k : kernel) (w : world) (code : Z) (p : pathname)
  (this : local_socket) :
  k (clock w) _ (socket_call P) = failure code ->
  exists e,
    (resource_exhaustion P code -> e = posix_fatal_error code)
    /\ (~ resource_exhaustion P code -> e = posix_error code)
    /\ (assert_not_empty P p = Returned tt ->
        ends k (bind P p) w (tick w (socket_call P)) (Thrown e)
        /\ ends k (connect P p) w (tick w (socket_call P)) (Thrown e))
    /\ ends k (accept P this) w (tick w (socket_call P)) (Thrown e).
Proof.
  intros Hk. pose proof (local_socket_new_fails P k w code Hk) as Hnew.
  exists (if is_case code [EMFILE P; ENFILE P; ENOBUFS P; ENOMEM P]
          then posix_fatal_error code else posix_error code).
  assert (Hnew' : ends k (local_socket_new P) w (tick w (socket_call P))
                    (Thrown (if is_case code [EMFILE P; ENFILE P; ENOBUFS P; ENOMEM P]
                             then posix_fatal_error code else posix_error code)))
    by (destruct (is_case code _); exact Hnew).
  split; [| split; [| split; [| exact (accept_without_socket P k this w _ _ Hnew' Logic.I)]]].
  - intros Hfatal.
    assert (Hcase : is_case code [EMFILE P; ENFILE P; ENOBUFS P; ENOMEM P] = true)
      by (apply is_case_true; unfold resource_exhaustion in Hfatal; cbn; intuition).
    now rewrite Hcase.
  - intros Hordinary.
    assert (Hcase : is_case code [EMFILE P; ENFILE P; ENOBUFS P; ENOMEM P] = false)
      by (apply is_case_false; unfold resource_exhaustion in Hordinary; cbn; intuition).
    now rewrite Hcase.
  - intros Hassert. split.
    + exact (bind_without_socket P k p w _ _ Hassert Hnew' Logic.I).
    + exact (connect_without_socket P k p w _ _ Hassert Hnew' Logic.I).
Qed.

Lemma socket_failure_ends_bind_connect_and_accept_witness :
  exists e,
    e = posix_error 4
    /\ ends (script [] (uniform (failure 4))) (bind linux_x86_64 long_pathname) boot
         (tick boot (socket_call linux_x86_64)) (Thrown e)
    /\ ends (script [] (uniform (failure 4)))
         (accept linux_x86_64 (assign empty_descriptor 3)) boot
         (tick boot (socket_call linux_x86_64)) (Thrown e).
Proof.
  destruct (socket_failure_ends_bind_connect_and_accept linux_x86_64
              (script [] (uniform (failure 4))) boot 4 long_pathname
              (assign empty_descriptor 3) eq_refl)
    as [e [_ [Hordinary [Hpath Haccept]]]].
  exists e. split; [| split].
  - apply Hordinary. unfold resource_exhaustion. cbn. lia.
  - apply Hpath. reflexivity.
  - exact Haccept.
Defined.

(** X12.  A connection [accept] returns is close-on-exec, one way or the
    other.  Once the result socket was created and the call returned
    [connfd] (after [n] interruptions), the result owns [connfd].  Built
    with both [HAVE_ACCEPT4] and [SOCK_CLOEXEC], the call is [accept4] with
    the flag [SOCK_CLOEXEC] and nothing is called after it.  Built without
    one of them, the call is plain [accept], [cloexec(true)] is called on
    the connection right after, and [accept] throws what that call throws. *)
Theorem accept_requests_close_on_exec
  (P : platform) (k : kernel) (this : local_socket) (w w0 : world)
  (connection : local_socket) (n : nat) (last : sysret) :
  ends k (local_socket_new P) w w0 (Returned connection) ->
  rc last <> -1 ->
  answers_after k w0 (accept_call P (fd this)) n (failure (EINTR P)) last ->
  let result := assign connection (rc last) in
  let accepted := answered w0 (accept_call P (fd this)) n in
  fd result = rc last
  /\ (accept_is_atomic P = true ->
      (exists bit, SOCK_CLOEXEC P = Some bit
                   /\ accept_call P (fd this) = Accept4 (fd this) bit)
      /\ ends k (accept P this) w accepted (Returned result))
  /\ (accept_is_atomic P = false ->
      accept_call P (fd this) = Accept (fd this)
      /\ (k (clock accepted) _ (Cloexec result true) = None ->
          ends k (accept P this) w (tick accepted (Cloexec result true))
            (Returned result))
      /\ (forall e, k (clock accepted) _ (Cloexec result true) = Some e ->
          ends k (accept P this) w (tick accepted (Cloexec result true))
            (Thrown e))).
Proof.
  intros Hnew Hrc Hk result accepted.
  assert (Hloop : ends k (accept_retry P (fd this)) w0 accepted (Returned (rc last))).
  { unfold accepted, answered. rewrite <- ticks_eq. now apply accept_retry_succeeds. }
  pose proof (accept_connected P k this w w0 accepted connection (rc last) Hnew Hloop)
    as Hends.
  fold result in Hends.
  split; [reflexivity |]. split.
  - intros Hatomic. rewrite Hatomic in Hends. split; [| exact Hends].
    unfold accept_is_atomic in Hatomic. unfold accept_call.
    destruct (HAVE_ACCEPT4 P); [| discriminate].
    destruct (SOCK_CLOEXEC P) as [bit |]; [| discriminate].
    exists bit. split; reflexivity.
  - intros Hatomic. rewrite Hatomic in Hends. split; [| split].
    + unfold accept_is_atomic in Hatomic. unfold accept_call.
      destruct (HAVE_ACCEPT4 P); [| reflexivity].
      destruct (SOCK_CLOEXEC P) as [bit |]; [discriminate | reflexivity].
    + intros Hcloexec. now rewrite Hcloexec in Hends.
    + intros e Hcloexec. now rewrite Hcloexec in Hends.
Qed.

Lemma accept_requests_close_on_exec_witness :
  ends (script [uniform (success 5); uniform (success 0); uniform (failure 4);
                uniform (success 8)]
          (cloexec_throws (posix_error 9)))
    (accept bsd_like (assign empty_descriptor 3)) boot
    (tick (answered (tick (tick boot (socket_call bsd_like))
                       (Cloexec (assign empty_descriptor 5) true))
             (accept_call bsd_like 3) 1)
       (Cloexec (assign (assign empty_descriptor 5) 8) true))
    (Thrown (posix_error 9)).
Proof.
  refine (proj2 (proj2 (proj2 (proj2
    (accept_requests_close_on_exec bsd_like
       (script [uniform (success 5); uniform (success 0); uniform (failure 4);
                uniform (success 8)]
          (cloexec_throws (posix_error 9)))
       (assign empty_descriptor 3) boot
       (tick (tick boot (socket_call bsd_like))
          (Cloexec (assign empty_descriptor 5) true))
       (assign empty_descriptor 5) 1 (success 8) _ _ _)) _)) (posix_error 9) _);
    try reflexivity; try discriminate.
  - apply (run_ends _ 10). vm_compute. reflexivity.
  - split; [| reflexivity].
    intros i Hi. assert (i = 0%nat) by lia. subst i. reflexivity.
Defined.

(** ** Pathnames the assertion lets through *)

(** The C string in memory stops at the first [NUL], whatever follows. *)
Lemma c_string_cut (s rest : string) :
  c_string (s ++ String NUL rest) = c_string s.
Proof.
  induction s as [|c s IH]; cbn; [reflexivity |].
  destruct (Ascii.eqb c NUL); [reflexivity | now rewrite IH].
Qed.

Lemma build_address_of_c_string (P : platform) (p q : pathname) :
  c_string (path_string p) = c_string (path_string q) ->
  build_address P p = build_address P q.
Proof.
  intros H. unfold build_address, strcpy, c_str. cbv zeta.
  now rewrite !c_string_terminated, H.
Qed.

(** X13.  A pathname whose C string is empty (the empty pathname, which the
    assertion lets through when built with [NDEBUG], or a pathname that
    starts with a [NUL] byte, which passes the assertion in every build) is
    not rejected: the address built is the family tag and an empty path,
    the address length is the size of the family tag alone, and [bind] and
    [connect] go on to their call with that address and end as it ends. *)
Theorem pathname_with_empty_c_string_is_passed_on
  (P : platform) (k : kernel) (p : pathname) :
  platform_ok P ->
  assert_not_empty P p = Returned tt ->
  c_string (path_string p) = "" ->
  let addr := {| sun_family := AF_LOCAL P; sun_path := String NUL "" |} in
  let addrlen := sizeof_sun_family P in
  build_address P p = Returned (addr, addrlen)
  /\ (forall w w0 w1 socket o,
        ends k (local_socket_new P) w w0 (Returned socket) ->
        ends k (bind_retry P (fd socket) addr addrlen) w0 w1 o ->
        ends k (bind P p) w w1 (returning o socket))
  /\ (forall w w0 w1 socket o,
        ends k (local_socket_new P) w w0 (Returned socket) ->
        ends k (connect_retry P (fd socket) addr addrlen) w0 w1 o ->
        ends k (connect P p) w w1 (returning o socket)).
Proof.
  intros P_ok Hassert Hempty addr addrlen.
  assert (Hlen : strlen (c_str p) = 0) by (rewrite strlen_c_str, Hempty; reflexivity).
  assert (Haddr : build_address P p = Returned (addr, addrlen)).
  { rewrite (build_address_fits P P_ok p).
    - rewrite Hempty, Hlen, Z.add_0_r. reflexivity.
    - rewrite Hlen. pose proof (ok_sun_path P P_ok). lia. }
  split; [exact Haddr |]. split.
  - intros w w0 w1 socket o Hnew Hloop.
    exact (bind_ends P k p w w0 w1 socket addr addrlen o Hassert Hnew Haddr Hloop).
  - intros w w0 w1 socket o Hnew Hloop.
    exact (connect_ends P k p w w0 w1 socket addr addrlen o Hassert Hnew Haddr Hloop).
Qed.

Lemma pathname_with_empty_c_string_is_passed_on_witness :
  build_address bsd_like {| path_string := "" |}
  = Returned ({| sun_family := 1; sun_path := String NUL "" |}, 1)
  /\ ends (script [] (uniform (success 3)))
       (bind bsd_like {| path_string := "" |}) boot
       (tick (tick (tick boot (socket_call bsd_like))
                (Cloexec (assign empty_descriptor 3) true))
          (Bind 3 {| sun_family := 1; sun_path := String NUL "" |} 1))
       (Returned (assign empty_descriptor 3)).
Proof.
  destruct (pathname_with_empty_c_string_is_passed_on bsd_like
              (script [] (uniform (success 3))) {| path_string := "" |}
              bsd_like_ok eq_refl eq_refl) as [Haddr [Hbind _]].
  split; [exact Haddr |].
  apply (Hbind boot
           (tick (tick boot (socket_call bsd_like))
              (Cloexec (assign empty_descriptor 3) true))
           _ (assign empty_descriptor 3) (Returned tt)).
  - apply (run_ends _ 10). vm_compute. reflexivity.
  - apply (run_ends _ 10). vm_compute. reflexivity.
Defined.

(** X14.  The pathname is cut at its first [NUL] byte: [bind] and [connect]
    of the bytes [s], a [NUL] and anything after it are the same
    computations as [bind] and [connect] of [s] alone (for a non-empty [s],
    so that the assertion sees two non-empty pathnames): same assertion,
    same address, same address length, same calls. *)
Theorem pathname_is_cut_at_its_first_NUL
  (P : platform) (s rest : string) :
  s <> "" ->
  let p := {| path_string := s ++ String NUL rest |} in
  let q := {| path_string := s |} in
  build_address P p = build_address P q
  /\ bind P p = bind P q
  /\ connect P p = connect P q.
Proof.
  intros Hs p q.
  assert (Haddr : build_address P p = build_address P q)
    by (apply build_address_of_c_string; apply c_string_cut).
  assert (Hassert : assert_not_empty P p = assert_not_empty P q).
  { unfold assert_not_empty, pathname_empty, p, q. cbn [path_string].
    destruct s; [now elim Hs | reflexivity]. }
  split; [exact Haddr |].
  unfold bind, connect. now rewrite Haddr, Hassert.
Qed.

Lemma pathname_is_cut_at_its_first_NUL_witness :
  bind linux_x86_64 split_pathname = bind linux_x86_64 {| path_string := "a" |}.
Proof.
  refine (proj1 (proj2 (pathname_is_cut_at_its_first_NUL linux_x86_64 "a" "b" _))).
  discriminate.
Defined.

(** X15.  The three [static_assert]s of the transfer functions never fail
    where the headers are sound: the control buffer of
    [CMSG_SPACE(sizeof(int))] bytes holds a [cmsghdr], holds a record of
    [CMSG_LEN(sizeof(int))] bytes (the header and one [int]), and its size is
    a multiple of the alignment unit. *)
Theorem control_buffer_holds_one_rights_record (P : platform) :
  platform_ok P ->
  static_asserts P = true
  /\ sizeof_cmsghdr P + sizeof_int P <= CMSG_LEN P (sizeof_int P)
  /\ CMSG_LEN P (sizeof_int P) <= capacity (cmsg_buffer P)
  /\ capacity (cmsg_buffer P) mod sizeof_size_t P = 0.
Proof.
  intros P_ok.
  pose proof (CMSG_ALIGN_ge P P_ok (sizeof_int P)) as Hi.
  pose proof (CMSG_ALIGN_ge P P_ok (sizeof_cmsghdr P)) as Hh.
  pose proof (sizeof_size_t_pos P P_ok) as Ha.
  split; [apply (static_asserts_hold P P_ok) |].
  unfold cmsg_buffer. cbn [capacity]. unfold CMSG_LEN, CMSG_SPACE.
  split; [lia |]. split; [lia |].
  rewrite !(CMSG_ALIGN_rounds P P_ok), <- Z.mul_add_distr_r.
  apply Z.mod_mul. lia.
Qed.

Lemma control_buffer_holds_one_rights_record_witness :
  static_asserts bsd_like = true
  /\ 12 + 4 <= CMSG_LEN bsd_like 4
  /\ CMSG_LEN bsd_like 4 <= capacity (cmsg_buffer bsd_like)
  /\ capacity (cmsg_buffer bsd_like) mod 4 = 0.
Proof.
  exact (control_buffer_holds_one_rights_record bsd_like bsd_like_ok).
Defined.
